(** * devforfu/blog: decision-tree renderer and CLI plotters

    A shallow embedding of [trees/plots.py] (the Graphviz renderer of a
    binary decision tree, its colour palette and its hexadecimal colour
    conversion) and of the [scatter] point splitting of
    [cli/example_click.py] and [cli/example_fire.py], with the properties
    the specification states about them.

    Python integers are [Z]; Python floats are the binary64 values of
    [spec_float] with the IEEE operations of [SpecFloat]; an exception is
    a [Raise] result; the random source and the written file are threaded
    explicitly. *)

From Stdlib Require Import ZArith List Bool Lia String Ascii.
From Stdlib Require Import DecimalString.
From Stdlib Require Import Floats.SpecFloat.
Import ListNotations.

Local Open Scope string_scope.
Local Open Scope list_scope.
Local Open Scope Z_scope.

(** ** Python results and exceptions *)

Inductive pyerr : Type :=
| IndexError
| ZeroDivisionError
| ValueError
| TypeError
| OverflowError
| AttributeError
| OSError.

Inductive result (A : Type) : Type :=
| Ok (a : A)
| Raise (e : pyerr).

Arguments Ok {A} a.
Arguments Raise {A} e.

Definition rbind {A B : Type} (r : result A) (k : A -> result B) : result B :=
  match r with
  | Ok a => k a
  | Raise e => Raise e
  end.

Declare Scope result_scope.
Delimit Scope result_scope with result.
Notation "'let?' x ':=' r 'in' k" := (rbind r (fun x => k))
  (at level 10, x pattern, r at level 100, k at level 200) : result_scope.
Local Open Scope result_scope.

(** A list comprehension whose body can raise: elements are evaluated
    left to right and the first exception escapes. *)
Fixpoint comprehension {A B : Type} (f : A -> result B) (l : list A)
  : result (list B) :=
  match l with
  | [] => Ok []
  | x :: rest =>
      let? y := f x in
      let? ys := comprehension f rest in
      Ok (y :: ys)
  end.

(** ** Python sequences *)

(** [l[i]]: a negative index counts from the end, anything outside
    [-len, len) raises IndexError. *)
Definition py_index {A : Type} (l : list A) (i : Z) : result A :=
  let n := Z.of_nat (List.length l) in
  let j := if i <? 0 then i + n else i in
  if (0 <=? j) && (j <? n) then
    match nth_error l (Z.to_nat j) with
    | Some x => Ok x
    | None => Raise IndexError
    end
  else Raise IndexError.

(** [str(i)] of an integer. *)
Definition str_of_int (i : Z) : string :=
  NilZero.string_of_int (Z.to_int i).

(** [''.join(parts)] *)
Definition join_empty (parts : list string) : string :=
  String.concat EmptyString parts.

(** ** to_hexadecimal (trees/plots.py) *)

Definition hex_codes : list string :=
  List.map str_of_int [0; 1; 2; 3; 4; 5; 6; 7; 8; 9]
    ++ ["a"; "b"; "c"; "d"; "e"; "f"].

Definition hex_pair (c : Z) : result string :=
  let? hi := py_index hex_codes (c / 16) in
  let? lo := py_index hex_codes (c mod 16) in
  Ok (hi ++ lo)%string.

Definition to_hexadecimal (values : list Z) : result string :=
  let? color := comprehension hex_pair values in
  Ok ("#" ++ join_empty color)%string.

(** *** Reading a colour string back

    The specification's wording: every channel is two lowercase
    hexadecimal digits.  [hex_digit_value] is the value of one such digit
    and [decode_hex_pairs] reads a string two digits at a time. *)

Definition hex_digit_value (c : ascii) : option Z :=
  let n := Z.of_nat (nat_of_ascii c) in
  if (48 <=? n) && (n <=? 57) then Some (n - 48)
  else if (97 <=? n) && (n <=? 102) then Some (n - 87)
  else None.

Fixpoint decode_hex_pairs (s : string) : option (list Z) :=
  match s with
  | EmptyString => Some []
  | String hi (String lo rest) =>
      match hex_digit_value hi, hex_digit_value lo, decode_hex_pairs rest with
      | Some h, Some l, Some cs => Some (16 * h + l :: cs)
      | _, _, _ => None
      end
  | String _ EmptyString => None
  end.

Definition channel (c : Z) : Prop := 0 <= c <= 255.

(** ** Plotter.scatter (cli/example_click.py, cli/example_fire.py)

    The two files hold the same method.  Its value for the claims is the
    pair [(xs, ys)] handed to [ax.scatter]. *)

(** [points[start::2]] *)
Fixpoint every_other {A : Type} (l : list A) : list A :=
  match l with
  | [] => []
  | x :: rest =>
      x :: match rest with
           | [] => []
           | _ :: rest' => every_other rest'
           end
  end.

Definition slice_step2 {A : Type} (start : nat) (l : list A) : list A :=
  every_other (List.skipn start l).

Definition scatter_points {A : Type} (points : list A) : list A * list A :=
  let n := Z.of_nat (List.length points) in
  let n := if negb (n mod 2 =? 0) then n - 1 else n in
  let points := List.firstn (Z.to_nat n) points in
  (slice_step2 0 points, slice_step2 1 points).

(** ** Python floats

    A Python float is an IEEE binary64 value.  Arithmetic is the
    correctly rounded arithmetic of [SpecFloat] at precision 53. *)

Definition float : Type := spec_float.

Definition prec : Z := 53.
Definition emax : Z := 1024.

Definition fadd : float -> float -> float := SFadd prec emax.
Definition fsub : float -> float -> float := SFsub prec emax.
Definition fmul : float -> float -> float := SFmul prec emax.

(** The float nearest to an integer; [float(i)] raises OverflowError
    when that is an infinity. *)
Definition nearest_float (i : Z) : float := binary_normalize prec emax i 0 false.

Definition float_of_int (i : Z) : result float :=
  match nearest_float i with
  | S754_infinity _ => Raise OverflowError
  | f => Ok f
  end.

(** The float a decimal literal denotes, given as the fraction [num/den]
    of two exactly representable integers ([0.75] is [3/4], [0.9] is
    [9/10], [60.] is [60/1]). *)
Definition literal (num den : Z) : float :=
  SFdiv prec emax (nearest_float num) (nearest_float den).

(** [x / y] on floats: a zero divisor raises. *)
Definition fdiv (x y : float) : result float :=
  match y with
  | S754_zero _ => Raise ZeroDivisionError
  | _ => Ok (SFdiv prec emax x y)
  end.

(** [a / b] on integers (true division): the quotient of the two exact
    integers, rounded once. *)
Definition int_truediv (a b : Z) : result float :=
  match a, b with
  | _, Z0 => Raise ZeroDivisionError
  | Z0, _ => Ok (S754_zero (b <? 0))
  | Zpos p, Zpos q => 
      match SFdiv prec emax (S754_finite false p 0) (S754_finite false q 0) with
      | S754_infinity _ => Raise OverflowError
      | f => Ok f
      end
  | Zpos p, Zneg q =>
      match SFdiv prec emax (S754_finite false p 0) (S754_finite true q 0) with
      | S754_infinity _ => Raise OverflowError
      | f => Ok f
      end
  | Zneg p, Zpos q =>
      match SFdiv prec emax (S754_finite true p 0) (S754_finite false q 0) with
      | S754_infinity _ => Raise OverflowError
      | f => Ok f
      end
  | Zneg p, Zneg q =>
      match SFdiv prec emax (S754_finite true p 0) (S754_finite true q 0) with
      | S754_infinity _ => Raise OverflowError
      | f => Ok f
      end
  end.

(** [int(x)]: truncation toward zero. *)
Definition float_trunc (x : float) : result Z :=
  match x with
  | S754_zero _ => Ok 0
  | S754_finite s m e =>
      let v := if 0 <=? e then Zpos m * 2 ^ e else Zpos m / 2 ^ (- e) in
      Ok (if s then - v else v)
  | S754_infinity _ => Raise OverflowError
  | S754_nan => Raise ValueError
  end.

(** The ceiling of a float, as an integer. *)
Definition float_ceil (x : float) : result Z :=
  match x with
  | S754_zero _ => Ok 0
  | S754_finite s m e =>
      if 0 <=? e then Ok (cond_Zopp s (Zpos m * 2 ^ e))
      else if s then Ok (- (Zpos m / 2 ^ (- e)))
      else Ok (- ((- Zpos m) / 2 ^ (- e)))
  | S754_infinity _ => Raise OverflowError
  | S754_nan => Raise ValueError
  end.

(** [x % y] on floats: the exact remainder of the truncated division,
    moved to the sign of the divisor. *)
Definition fmod (x y : float) : float :=
  match x, y with
  | S754_nan, _ | _, S754_nan => S754_nan
  | S754_infinity _, _ => S754_nan
  | _, S754_zero _ => S754_nan
  | S754_zero _, S754_infinity sy => S754_zero sy
  | S754_zero _, S754_finite sy _ _ => S754_zero sy
  | S754_finite sx _ _, S754_infinity sy => if xorb sx sy then y else x
  | S754_finite sx mx ex, S754_finite sy my ey =>
      let e0 := Z.min ex ey in
      let a := cond_Zopp sx (Zpos mx * 2 ^ (ex - e0)) in
      let b := Zpos my * 2 ^ (ey - e0) in
      let r := Z.rem a b in
      if r =? 0 then S754_zero sy
      else
        let m := binary_normalize prec emax r e0 false in
        if xorb sy (r <? 0) then fadd m y else m
  end.

(** ** numpy.arange(start, stop, step) with a float step, then
    [.astype(int)]

    The length is [ceil((stop - start) / step)]; the values are
    [start + i * delta] with [delta = (start + step) - start], computed
    in binary64. *)
Definition arange_length (start stop : Z) (step : float) : result Z :=
  let? span := float_of_int (stop - start) in
  let? q := fdiv span step in
  let? len := float_ceil q in
  Ok (Z.max 0 len).

Definition arange_item (start : float) (step : float) (i : nat) : float :=
  match i with
  | O => start
  | S O => fadd start step
  | _ => fadd start (fmul (nearest_float (Z.of_nat i)) (fsub (fadd start step) start))
  end.

Definition arange (start stop : Z) (step : float) : result (list float) :=
  let? len := arange_length start stop step in
  let? first := float_of_int start in
  Ok (List.map (arange_item first step) (List.seq 0 (Z.to_nat len))).

Definition astype_int (a : list float) : result (list Z) :=
  comprehension float_trunc a.

(** ** _color_brew (trees/plots.py) *)

Definition s_sat : float := literal 3 4.
Definition v_val : float := literal 9 10.
Definition chroma : float := fmul s_sat v_val.
Definition m_shift : float := fsub v_val chroma.

Definition fzero : float := S754_zero false.

(** The body of the loop: the RGB triple of one integer hue. *)
Definition hue_rgb (h : Z) : result (list Z) :=
  let c := chroma in
  let m := m_shift in
  let? hf := float_of_int h in
  let? h_bar := fdiv hf (literal 60 1) in
  let x := fmul c (fsub (nearest_float 1)
                        (SFabs (fsub (fmod h_bar (nearest_float 2))
                                     (nearest_float 1)))) in
  let rgb := [(c, x, fzero);
              (x, c, fzero);
              (fzero, c, x);
              (fzero, x, c);
              (x, fzero, c);
              (c, fzero, x);
              (c, x, fzero)] in
  let? sector := float_trunc h_bar in
  let? (r, g, b) := py_index rgb sector in
  let? r' := float_trunc (fmul (nearest_float 255) (fadd r m)) in
  let? g' := float_trunc (fmul (nearest_float 255) (fadd g m)) in
  let? b' := float_trunc (fmul (nearest_float 255) (fadd b m)) in
  Ok [r'; g'; b'].

Definition _color_brew (n : Z) : result (list (list Z)) :=
  let? nf := float_of_int n in
  let? step := fdiv (literal 360 1) nf in
  let? hues_f := arange 25 385 step in
  let? hues := astype_int hues_f in
  comprehension hue_rgb hues.

(** ** Formatting *)

Definition nl : string := String (ascii_of_nat 10) EmptyString.
Definition dquote : string := String (ascii_of_nat 34) EmptyString.

(** ['\n'.join(lines)] *)
Definition join_lines (lines : list string) : string := String.concat nl lines.

Definition two_digits (d : Z) : string :=
  if d <? 10 then ("0" ++ str_of_int d)%string else str_of_int d.

(** The integer nearest to [n / d] for [0 <= n], [0 < d], ties to even. *)
Definition round_half_even (n d : Z) : Z :=
  let q := n / d in
  let r := n mod d in
  match 2 * r ?= d with
  | Lt => q
  | Gt => q + 1
  | Eq => if Z.even q then q else q + 1
  end.

(** The number of hundredths nearest to the magnitude of a finite float. *)
Definition hundredths (m : positive) (e : Z) : Z :=
  if 0 <=? e then 100 * Zpos m * 2 ^ e
  else round_half_even (100 * Zpos m) (2 ^ (- e)).

Definition fixed2 (h : Z) : string :=
  (str_of_int (h / 100) ++ "." ++ two_digits (h mod 100))%string.

(** ['%2.2f' % x] for a float [x]: correctly rounded to two decimals;
    the minimum width of 2 never pads. *)
Definition format_2f (x : float) : string :=
  match x with
  | S754_nan => "nan"
  | S754_infinity false => "inf"
  | S754_infinity true => "-inf"
  | S754_zero false => "0.00"
  | S754_zero true => "-0.00"
  | S754_finite s m e =>
      ((if s then "-" else EmptyString) ++ fixed2 (hundredths m e))%string
  end.

(** ** The decision tree *)

(** A number held in the overloaded [value] field: a class index on a
    leaf, a threshold on an internal node. *)
Inductive pynum : Type :=
| PInt (i : Z)
| PFloat (f : float).

(** [counts] is a [Counter]: class label to count, in insertion order. *)
Unset Elimination Schemes.
Inductive TreeNode : Type :=
  mkNode {
    is_leaf : bool;
    feature : Z;
    value : pynum;
    gini : float;
    counts : list (Z * Z);
    left : option TreeNode;
    right : option TreeNode
  }.
Set Elimination Schemes.

(** Induction over a tree: the children, when present, satisfy the
    property. *)
Definition on_child (P : TreeNode -> Prop) (c : option TreeNode) : Prop :=
  match c with
  | Some t => P t
  | None => True
  end.

Fixpoint TreeNode_ind (P : TreeNode -> Prop)
    (step : forall node, on_child P (left node) -> on_child P (right node) -> P node)
    (node : TreeNode) {struct node} : P node :=
  step node
    (match node as n return on_child P (left n) with
     | mkNode _ _ _ _ _ l _ =>
         match l as c return on_child P c with
         | Some t => TreeNode_ind P step t
         | None => I
         end
     end)
    (match node as n return on_child P (right n) with
     | mkNode _ _ _ _ _ _ r =>
         match r as c return on_child P c with
         | Some t => TreeNode_ind P step t
         | None => I
         end
     end).

(** ['%2.2f' % v] for a number: an integer is converted to a float. *)
Definition format_2f_num (v : pynum) : result string :=
  match v with
  | PInt i => let? f := float_of_int i in Ok (format_2f f)
  | PFloat f => Ok (format_2f f)
  end.

(** [seq[v]]: only an integer indexes a list. *)
Definition index_by_num {A : Type} (l : list A) (v : pynum) : result A :=
  match v with
  | PInt i => py_index l i
  | PFloat _ => Raise TypeError
  end.

(** [sum(counts.values())] *)
Definition total_count (cs : list (Z * Z)) : Z :=
  List.fold_left (fun acc kv => acc + snd kv) cs 0.

(** [counts.most_common(1)]: the first entry, in insertion order, with the
    largest count; the empty list for an empty counter. *)
Definition most_common_1 (cs : list (Z * Z)) : list (Z * Z) :=
  match cs with
  | [] => []
  | kv :: rest =>
      [List.fold_left (fun best kv' => if snd best <? snd kv' then kv' else best)
                      rest kv]
  end.

(** [[(a, b)] = l]: unpacking a list that must hold exactly one pair. *)
Definition unpack_single {A : Type} (l : list A) : result A :=
  match l with
  | [x] => Ok x
  | _ => Raise ValueError
  end.

(** ** The closures of create_graph *)

Section Renderer.

Variable feature_names : list string.
Variable class_names : list string.
Variable colors : list (list Z).

Definition node_to_str (node : TreeNode) : result string :=
  if is_leaf node then
    index_by_num class_names (value node)
  else
    let? name := py_index feature_names (feature node) in
    let total := total_count (counts node) in
    let? (category, num_of_samples) := unpack_single (most_common_1 (counts node)) in
    let? ratio := int_truediv num_of_samples total in
    let? threshold := format_2f_num (value node) in
    let lines := [ ("samples: " ++ str_of_int total)%string;
                   ("gini: " ++ format_2f (gini node))%string;
                   ("ratio: " ++ format_2f ratio)%string;
                   (name ++ " <= " ++ threshold)%string ] in
    Ok (join_lines lines).

Definition get_node_color (node : TreeNode) : result string :=
  if is_leaf node then
    let? rgb := index_by_num colors (value node) in
    to_hexadecimal rgb
  else
    let? (cls, count) := unpack_single (most_common_1 (counts node)) in
    let total := total_count (counts node) in
    let? rgb := py_index colors cls in
    let? q := int_truediv (255 * count) total in
    let? alpha := float_trunc q in
    let rgba := rgb ++ [alpha] in
    to_hexadecimal rgba.

End Renderer.

(** ** The random source and the written file

    [random] draws come from a stream of naturals; every [file.write] is
    recorded with the arguments of its format string, and [render] gives
    the text that reaches the file. *)

Inductive chunk : Type :=
| Text (s : string)
| NodeStmt (uid label color : string)
| EdgeStmt (src dst label : string).

(** ['%s [label="%s", fillcolor="%s"];\n'] and
    ['%s -> %s [label=%s, labeldistance=2.5, labelangle=45];\n'] *)
Definition render_chunk (c : chunk) : string :=
  match c with
  | Text s => s
  | NodeStmt uid label color =>
      uid ++ " [label=" ++ dquote ++ label ++ dquote
          ++ ", fillcolor=" ++ dquote ++ color ++ dquote ++ "];" ++ nl
  | EdgeStmt src dst label =>
      src ++ " -> " ++ dst ++ " [label=" ++ label
          ++ ", labeldistance=2.5, labelangle=45];" ++ nl
  end%string.

Definition render (cs : list chunk) : string :=
  join_empty (List.map render_chunk cs).

Record world : Type := mkWorld {
  rng : nat -> nat;
  written : list chunk
}.

Definition M (A : Type) : Type := world -> result A * world.

Definition ret {A : Type} (a : A) : M A := fun w => (Ok a, w).

Definition bind {A B : Type} (m : M A) (k : A -> M B) : M B :=
  fun w =>
    match m w with
    | (Ok a, w') => k a w'
    | (Raise e, w') => (Raise e, w')
    end.

Definition lift {A : Type} (r : result A) : M A := fun w => (r, w).

Declare Scope io_scope.
Delimit Scope io_scope with io.
Notation "x <- m ;; k" := (bind m (fun x => k))
  (at level 61, m at next level, right associativity) : io_scope.
Notation "m ;;; k" := (bind m (fun _ => k))
  (at level 61, right associativity) : io_scope.
Local Open Scope io_scope.

(** [file.write(...)] *)
Definition write (c : chunk) : M unit :=
  fun w => (Ok tt, mkWorld (rng w) (written w ++ [c])).

(** One draw of the random source. *)
Definition draw : M nat :=
  fun w => (Ok (rng w 0%nat), mkWorld (fun k => rng w (S k)) (written w)).

(** [random.choice(chars)] *)
Definition random_choice (chars : list string) : M string :=
  k <- draw ;;
  lift (match nth_error chars (Nat.modulo k (List.length chars)) with
        | Some c => Ok c
        | None => Raise IndexError
        end).

Definition digits : list string :=
  ["0"; "1"; "2"; "3"; "4"; "5"; "6"; "7"; "8"; "9"].

Fixpoint choices (size : nat) (chars : list string) : M (list string) :=
  match size with
  | O => ret []
  | S size' =>
      c <- random_choice chars ;;
      cs <- choices size' chars ;;
      ret (c :: cs)
  end.

(** [node_id(size=20, chars=digits)] *)
Definition node_id : M string :=
  cs <- choices 20 digits ;;
  ret (join_empty cs).

Section Create.

Variable feature_names : list string.
Variable class_names : list string.
Variable colors : list (list Z).

Fixpoint create (node : TreeNode) : M string :=
  uid <- node_id ;;
  label <- lift (node_to_str feature_names class_names node) ;;
  color <- lift (get_node_color colors node) ;;
  write (NodeStmt uid label color) ;;;
  (if negb (is_leaf node) then
     match left node with
     | Some l =>
         l_uid <- create l ;;
         write (EdgeStmt uid l_uid "yes")
     | None => ret tt
     end ;;;
     match right node with
     | Some r =>
         r_uid <- create r ;;
         write (EdgeStmt uid r_uid "no")
     | None => ret tt
     end
   else ret tt) ;;;
  ret uid.

End Create.

(** ** create_graph *)

Definition styling : list (string * string) :=
  [("shape", "box"); ("style", "filled, rounded"); ("color", "black")].

Definition styles : list string :=
  List.map (fun kv => (fst kv ++ "=" ++ dquote ++ snd kv ++ dquote)%string) styling.

(** The object bound to [fp]: an in-memory [StringIO], or the text file
    that [open(output_file, 'w')] returns. *)
Inductive fileobj : Type :=
| StringIO
| TextFile (path : string).

(** [fp.getvalue()]: only a [StringIO] has the method. *)
Definition getvalue (fp : fileobj) : M string :=
  fun w =>
    match fp with
    | StringIO => (Ok (render (written w)), w)
    | TextFile _ => (Raise AttributeError, w)
    end.

(** [open(output_file, 'w', encoding='utf-8')], or a fresh [StringIO]
    when no path is given.  [openable] tells which paths the file system
    lets the call create or truncate; on any other path [open] raises
    (FileNotFoundError, PermissionError, ...: all are OSError) and nothing
    is written. *)
Definition open_fp (openable : string -> bool) (output_file : option string)
  : result fileobj :=
  match output_file with
  | None => Ok StringIO
  | Some path => if openable path then Ok (TextFile path) else Raise OSError
  end.

(** What a call leaves behind: its result (the returned text or the
    exception that escapes), what was written to [fp], and the file on
    disk when one was opened (closed by the [finally] clause on every
    path). *)
Record outcome : Type := mkOutcome {
  returned : result string;
  fp_written : list chunk;
  saved : option (string * string)
}.

Definition create_graph (random : nat -> nat) (openable : string -> bool)
    (tree : TreeNode) (feature_names class_names : list string)
    (output_file : option string)
  : outcome :=
  let n_colors := Z.of_nat (List.length class_names) in
  match _color_brew n_colors with
  | Raise e => mkOutcome (Raise e) [] None
  | Ok colors =>
      match open_fp openable output_file with
      | Raise e => mkOutcome (Raise e) [] None
      | Ok fp =>
          let body :=
            write (Text ("digraph Tree {" ++ nl)) ;;;
            write (Text ("node [" ++ String.concat ", " styles ++ "];" ++ nl)) ;;;
            create feature_names class_names colors tree ;;;
            write (Text "}") ;;;
            getvalue fp in
          let (r, w) := body (mkWorld random []) in
          mkOutcome r (written w)
            match fp with
            | StringIO => None
            | TextFile path => Some (path, render (written w))
            end
      end
  end.

(** ** Vocabulary of the specification *)

(** The flat sequence that pairs [xs] with [ys]: x0, y0, x1, y1, ... *)
Fixpoint interleave {A : Type} (xs ys : list A) : list A :=
  match xs, ys with
  | x :: xs', y :: ys' => x :: y :: interleave xs' ys'
  | _, _ => []
  end.

(** The node statements of an output, in emission order, and their
    label and fill colour. *)
Definition node_stmts (cs : list chunk) : list (string * string * string) :=
  List.flat_map (fun c => match c with
                          | NodeStmt uid label color => [(uid, label, color)]
                          | _ => []
                          end) cs.

Definition labels_colors (cs : list chunk) : list (string * string) :=
  List.map (fun n => (snd (fst n), snd n)) (node_stmts cs).

(** The edge statements of an output: source, target, label. *)
Definition edge_stmts (cs : list chunk) : list (string * string * string) :=
  List.flat_map (fun c => match c with
                          | EdgeStmt src dst label => [(src, dst, label)]
                          | _ => []
                          end) cs.

(** An output with its random identifiers blanked. *)
Definition erase_ids (c : chunk) : chunk :=
  match c with
  | Text s => Text s
  | NodeStmt _ label color => NodeStmt EmptyString label color
  | EdgeStmt _ _ label => EdgeStmt EmptyString EmptyString label
  end.

(** The edge labels a tree calls for, in emission order: below every
    internal node, "yes" after the left subtree when there is one and
    "no" after the right subtree when there is one. *)
Fixpoint edge_labels (node : TreeNode) : list string :=
  if is_leaf node then []
  else
    match left node with
    | Some l => edge_labels l ++ ["yes"]
    | None => []
    end ++
    match right node with
    | Some r => edge_labels r ++ ["no"]
    | None => []
    end.

Section Emission.

Variable feature_names : list string.
Variable class_names : list string.
Variable colors : list (list Z).

(** [Emits node uid out]: [out] is the statement sequence the
    specification describes for the subtree at [node] when [node] is
    given the identifier [uid]: its node statement, then for each child
    that is present the child's statements followed by the edge to the
    child's identifier; nothing for an absent child, and no edge below
    a leaf. *)
Inductive Emits : TreeNode -> string -> list chunk -> Prop :=
| Emits_leaf : forall node uid label color,
    is_leaf node = true ->
    node_to_str feature_names class_names node = Ok label ->
    get_node_color colors node = Ok color ->
    Emits node uid [NodeStmt uid label color]
| Emits_internal : forall node uid label color ls rs,
    is_leaf node = false ->
    node_to_str feature_names class_names node = Ok label ->
    get_node_color colors node = Ok color ->
    EmitsEdge (left node) uid "yes" ls ->
    EmitsEdge (right node) uid "no" rs ->
    Emits node uid (NodeStmt uid label color :: ls ++ rs)
with EmitsEdge : option TreeNode -> string -> string -> list chunk -> Prop :=
| Edge_absent : forall uid label,
    EmitsEdge None uid label []
| Edge_present : forall child uid label child_uid out,
    Emits child child_uid out ->
    EmitsEdge (Some child) uid label (out ++ [EdgeStmt uid child_uid label]).

(** The part of [create] that deals with one child. *)
Definition child_call (c : option TreeNode) (uid label : string) : M unit :=
  match c with
  | Some t =>
      c_uid <- create feature_names class_names colors t ;;
      write (EdgeStmt uid c_uid label)
  | None => ret tt
  end.

(** A call of [create] that returns has written what [Emits] says. *)
Definition emits_on_success (node : TreeNode) : Prop :=
  forall w uid w',
    create feature_names class_names colors node w = (Ok uid, w') ->
    exists out, written w' = written w ++ out /\ Emits node uid out.

(** Every node the traversal reaches has a label and a colour. *)
Fixpoint renderable (node : TreeNode) : bool :=
  match node_to_str feature_names class_names node,
        get_node_color colors node with
  | Ok _, Ok _ =>
      if is_leaf node then true
      else
        match left node with
        | Some l => renderable l
        | None => true
        end &&
        match right node with
        | Some r => renderable r
        | None => true
        end
  | _, _ => false
  end.

End Emission.

(** A colour with three channels, each in [0, 255], and a palette of
    [n] such colours. *)
Definition channels_ok (rgb : list Z) : bool :=
  (Nat.eqb (List.length rgb) 3)
  && List.forallb (fun c => (0 <=? c) && (c <=? 255)) rgb.

Definition palette_ok (n : Z) : bool :=
  match _color_brew n with
  | Ok palette =>
      (Z.of_nat (List.length palette) =? n) && List.forallb channels_ok palette
  | Raise _ => false
  end.

(** Two states of the written file that differ at most in the random
    identifiers, and two computations that keep it so and end alike. *)
Definition same_shape (w1 w2 : world) : Prop :=
  List.map erase_ids (written w1) = List.map erase_ids (written w2).

Definition alike {A : Type} (r1 r2 : result A) : Prop :=
  match r1, r2 with
  | Ok _, Ok _ => True
  | Raise e1, Raise e2 => e1 = e2
  | _, _ => False
  end.

Definition agree {A : Type} (m1 m2 : M A) : Prop :=
  forall w1 w2, same_shape w1 w2 ->
    alike (fst (m1 w1)) (fst (m2 w2))
    /\ same_shape (snd (m1 w1)) (snd (m2 w2)).

(** The two header lines [create_graph] writes first. *)
Definition header : list chunk :=
  [Text ("digraph Tree {" ++ nl);
   Text ("node [" ++ String.concat ", " styles ++ "];" ++ nl)].

(** Rounding of a positive quotient, as [SpecFloat] carries it out: a
    mantissa with a rounding bit and a sticky bit.  [inexact] tells that
    something was shifted out. *)
Definition inexact (mrs : shr_record) : bool := shr_r mrs || shr_s mrs.

Definition round_bit (mrs : shr_record) : Z := if shr_r mrs then 1 else 0.

(** [shifted t a b]: [b] is [a] after [t] right shifts. *)
Definition shifted (t : Z) (a b : shr_record) : Prop :=
  0 <= shr_m b
  /\ shr_m b * 2 ^ t <= shr_m a < (shr_m b + 1) * 2 ^ t
  /\ (inexact b = true -> shr_m b * 2 ^ t < shr_m a \/ inexact a = true)
  /\ (shr_r b = true -> (2 * shr_m b + 1) * 2 ^ t <= 2 * shr_m a + round_bit a).

(** A float that is at least 0 and at most the integer [K]. *)
Definition at_most (K : Z) (f : float) : Prop :=
  match f with
  | S754_zero _ => True
  | S754_finite false m e => e <= 0 /\ Zpos m <= K * 2 ^ (- e)
  | _ => False
  end.

(** A decimal digit, and a string of decimal digits. *)
Definition is_digit (c : ascii) : bool :=
  let n := Z.of_nat (nat_of_ascii c) in (48 <=? n) && (n <=? 57).

Fixpoint all_digits (s : string) : bool :=
  match s with
  | EmptyString => true
  | String c rest => is_digit c && all_digits rest
  end.

(** The number of nodes the traversal reaches: the children of a leaf
    are not visited. *)
Fixpoint reached (node : TreeNode) : nat :=
  if is_leaf node then 1%nat
  else
    (1 + match left node with
         | Some l => reached l
         | None => 0
         end
       + match right node with
         | Some r => reached r
         | None => 0
         end)%nat.

(** The identifiers that have a node statement in an output. *)
Definition node_ids (cs : list chunk) : list string :=
  List.map (fun n => fst (fst n)) (node_stmts cs).

(** A node or edge statement, as opposed to the header and the closing
    brace. *)
Definition is_statement (c : chunk) : bool :=
  match c with
  | Text _ => false
  | _ => true
  end.

(** Three channels between 57 and 229, with one channel at each bound. *)
Definition hue_rgb_ok (rgb : list Z) : bool :=
  Nat.eqb (List.length rgb) 3
  && List.forallb (fun c => (57 <=? c) && (c <=? 229)) rgb
  && List.existsb (Z.eqb 229) rgb
  && List.existsb (Z.eqb 57) rgb.

(** A float that is a zero or a finite number: neither an infinity nor a
    NaN. *)
Definition finite_or_zero (f : float) : Prop :=
  match f with
  | S754_zero _ | S754_finite _ _ _ => True
  | _ => False
  end.

(** A number that converts to a float: any float, or an integer below
    2^1023 in magnitude. *)
Definition fits_float (v : pynum) : Prop :=
  match v with
  | PFloat _ => True
  | PInt i => Z.abs i < 2 ^ 1023
  end.

(** * Properties *)

(** Linear arithmetic with division and remainder by constants. *)
Ltac div_lia := zify; Z.div_mod_to_equations; lia.

(** ** to_hexadecimal *)

Lemma py_index_raises : forall (A : Type) (l : list A) (i : Z) (e : pyerr),
  py_index l i = Raise e -> e = IndexError.
Proof.
  intros A l i e. unfold py_index.
  destruct ((0 <=? _) && (_ <? _)); [destruct (nth_error _ _)|]; congruence.
Qed.

Lemma hex_digit : forall d, 0 <= d < 16 ->
  exists ch, py_index hex_codes d = Ok (String ch EmptyString)
             /\ hex_digit_value ch = Some d.
Proof.
  intros d Hd.
  assert (Hcases : d = 0 \/ d = 1 \/ d = 2 \/ d = 3 \/ d = 4 \/ d = 5 \/ d = 6
                   \/ d = 7 \/ d = 8 \/ d = 9 \/ d = 10 \/ d = 11 \/ d = 12
                   \/ d = 13 \/ d = 14 \/ d = 15) by lia.
  repeat (destruct Hcases as [-> | Hcases]); try subst d;
    (eexists; split; [vm_compute; reflexivity | reflexivity]).
Qed.

Lemma hex_pair_channel : forall c, channel c ->
  exists hi lo, hex_pair c = Ok (String hi (String lo EmptyString))
                /\ hex_digit_value hi = Some (c / 16)
                /\ hex_digit_value lo = Some (c mod 16).
Proof.
  intros c [Hlo Hhi].
  destruct (hex_digit (c / 16)) as [hi [Ehi Vhi]].
  { split; [apply Z.div_pos; lia | apply Z.div_lt_upper_bound; lia]. }
  destruct (hex_digit (c mod 16)) as [lo [Elo Vlo]].
  { apply Z.mod_pos_bound; lia. }
  exists hi, lo. unfold hex_pair. rewrite Ehi, Elo. simpl. auto.
Qed.

Lemma hex_pair_raises : forall c e, hex_pair c = Raise e -> e = IndexError.
Proof.
  intros c e. unfold hex_pair.
  destruct (py_index hex_codes (c / 16)) eqn:E1; simpl.
  - destruct (py_index hex_codes (c mod 16)) eqn:E2; simpl; [discriminate|].
    intros H; inversion H; subst. eapply py_index_raises; eauto.
  - intros H; inversion H; subst. eapply py_index_raises; eauto.
Qed.

Lemma hex_pair_above : forall c, 256 <= c -> hex_pair c = Raise IndexError.
Proof.
  intros c Hc. unfold hex_pair, py_index.
  assert (Hq : 16 <= c / 16) by (apply Z.div_le_lower_bound; lia).
  change (Z.of_nat (List.length hex_codes)) with 16.
  destruct (c / 16 <? 0) eqn:Eneg; [apply Z.ltb_lt in Eneg; lia|].
  replace (c / 16 <? 16) with false by (symmetry; apply Z.ltb_ge; lia).
  rewrite andb_false_r. reflexivity.
Qed.

Lemma comprehension_hex_raises : forall values e,
  comprehension hex_pair values = Raise e -> e = IndexError.
Proof.
  induction values as [|c rest IH]; simpl; intros e H; [discriminate|].
  destruct (hex_pair c) eqn:Ec; simpl in H.
  - destruct (comprehension hex_pair rest) eqn:Er; simpl in H; [discriminate|].
    inversion H; subst. auto.
  - inversion H; subst. eapply hex_pair_raises; eauto.
Qed.

Lemma comprehension_hex_channels : forall values, Forall channel values ->
  exists parts, comprehension hex_pair values = Ok parts
    /\ String.length (join_empty parts) = (2 * List.length values)%nat
    /\ decode_hex_pairs (join_empty parts) = Some values.
Proof.
  induction 1 as [|c rest Hc Hrest IH].
  - exists []. repeat split.
  - destruct IH as [parts [Eparts [Hlen Hdec]]].
    destruct (hex_pair_channel c Hc) as [hi [lo [Epair [Vhi Vlo]]]].
    exists (String hi (String lo EmptyString) :: parts).
    simpl. rewrite Epair, Eparts. simpl.
    assert (Ejoin : join_empty (String hi (String lo EmptyString) :: parts)
                    = String hi (String lo (join_empty parts))).
    { unfold join_empty. simpl. destruct parts; reflexivity. }
    rewrite Ejoin. repeat split.
    + simpl. rewrite Hlen. lia.
    + cbn [decode_hex_pairs]. rewrite Vhi, Vlo, Hdec.
      rewrite <- (Z.div_mod c 16) by lia. reflexivity.
Qed.

(** C8: for channel values all in [0, 255], [to_hexadecimal] returns the
    marker '#' followed by exactly two characters per channel, and reading
    those characters back as pairs of lowercase hexadecimal digits gives
    the channel values again. *)
Theorem to_hexadecimal_two_digits_per_channel : forall values,
  Forall channel values ->
  exists body,
    to_hexadecimal values = Ok (String "#" body)
    /\ String.length body = (2 * List.length values)%nat
    /\ decode_hex_pairs body = Some values.
Proof.
  intros values Hv.
  destruct (comprehension_hex_channels values Hv) as [parts [E [Hlen Hdec]]].
  exists (join_empty parts). unfold to_hexadecimal. rewrite E. simpl. auto.
Qed.

Lemma to_hexadecimal_two_digits_witness :
  Forall channel [255; 255; 255; 128] /\
  exists body,
    to_hexadecimal [255; 255; 255; 128] = Ok (String "#" body)
    /\ String.length body = 8%nat
    /\ decode_hex_pairs body = Some [255; 255; 255; 128].
Proof.
  assert (H : Forall channel [255; 255; 255; 128])
    by (repeat constructor; unfold channel; lia).
  split; [exact H|].
  exact (to_hexadecimal_two_digits_per_channel [255; 255; 255; 128] H).
Defined.

Example to_hexadecimal_black : to_hexadecimal [0; 0; 0] = Ok "#000000".
Proof. reflexivity. Qed.

Example to_hexadecimal_white : to_hexadecimal [255; 255; 255] = Ok "#ffffff".
Proof. reflexivity. Qed.

Example to_hexadecimal_alpha_128 :
  to_hexadecimal [255; 255; 255; 128] = Ok "#ffffff80".
Proof. reflexivity. Qed.

(** An input holding a channel value of 256 or more makes the lookup in
    the sixteen-entry digit table fail: [to_hexadecimal] raises
    IndexError. *)
Theorem to_hexadecimal_above_255_raises : forall values,
  Exists (fun c => 256 <= c) values ->
  to_hexadecimal values = Raise IndexError.
Proof.
  intros values Hex. unfold to_hexadecimal.
  assert (H : comprehension hex_pair values = Raise IndexError).
  { induction Hex as [c rest Hc | c rest Hrest IH]; simpl.
    - rewrite (hex_pair_above c Hc). reflexivity.
    - destruct (hex_pair c) eqn:Ec; simpl.
      + rewrite IH. reflexivity.
      + f_equal. eapply hex_pair_raises; eauto. }
  rewrite H. reflexivity.
Qed.

Lemma to_hexadecimal_above_255_witness :
  Exists (fun c => 256 <= c) [229; 129; 57; 256]
  /\ to_hexadecimal [229; 129; 57; 256] = Raise IndexError.
Proof.
  assert (H : Exists (fun c => 256 <= c) [229; 129; 57; 256]).
  { do 3 apply Exists_cons_tl. apply Exists_cons_hd. lia. }
  split; [exact H|].
  exact (to_hexadecimal_above_255_raises [229; 129; 57; 256] H).
Defined.

(** Negative values down to -256 do not fail: Python's negative indices
    wrap around the digit table. *)
Example to_hexadecimal_negative : to_hexadecimal [-1] = Ok "#ff".
Proof. reflexivity. Qed.


(** ** Plotter.scatter *)

Lemma list_pair_ind : forall (A : Type) (P : list A -> Prop),
  P [] ->
  (forall x, P [x]) ->
  (forall x y l, P l -> P (x :: y :: l)) ->
  forall l, P l.
Proof.
  intros A P H0 H1 H2.
  assert (H : forall l, P l /\ forall x, P (x :: l)).
  { induction l as [|y l [IHl IHxl]]; split; auto. }
  intros l. apply H.
Qed.

Lemma every_other_even_split : forall (A : Type) (l : list A),
  Nat.even (List.length l) = true ->
  List.length (every_other l) = List.length (every_other (List.skipn 1 l))
  /\ interleave (every_other l) (every_other (List.skipn 1 l)) = l.
Proof.
  intros A. induction l as [| x | x y l IH] using list_pair_ind; intros Hev.
  - split; reflexivity.
  - discriminate.
  - destruct (IH Hev) as [Hlen Hint].
    cbn [every_other List.skipn List.length interleave].
    destruct l as [|z l'].
    + split; reflexivity.
    + cbn [List.skipn] in Hlen, Hint. cbn [List.length].
      split; [f_equal; exact Hlen | do 2 f_equal; exact Hint].
Qed.

Lemma kept_count : forall (A : Type) (points : list A),
  let n := Z.of_nat (List.length points) in
  Z.to_nat (if negb (n mod 2 =? 0) then n - 1 else n)
  = (2 * Nat.div2 (List.length points))%nat.
Proof.
  intros A points n. subst n.
  pose proof (Nat.div2_odd (List.length points)) as Hodd.
  generalize dependent (Nat.div2 (List.length points)).
  generalize (List.length points). intros len half Hodd.
  destruct (Nat.odd len); cbn [Nat.b2n] in Hodd;
    destruct (Z.eqb_spec (Z.of_nat len mod 2) 0) as [Emod|Emod];
    cbn [negb]; div_lia.
Qed.

Lemma kept_points : forall (A : Type) (points : list A),
  List.firstn (2 * Nat.div2 (List.length points)) points
  = if Nat.odd (List.length points) then List.removelast points else points.
Proof.
  intros A points.
  pose proof (Nat.div2_odd (List.length points)) as Hodd.
  destruct (Nat.odd (List.length points)); cbn [Nat.b2n] in Hodd.
  - rewrite removelast_firstn_len. f_equal. lia.
  - replace (2 * Nat.div2 (List.length points))%nat with (List.length points) by lia.
    apply firstn_all.
Qed.

Lemma interleave_length : forall (A : Type) (l1 l2 : list A),
  List.length l1 = List.length l2 ->
  List.length (interleave l1 l2) = (2 * List.length l1)%nat.
Proof.
  induction l1 as [|a l1 IH]; intros [|b l2] Hl; try discriminate; [reflexivity|].
  cbn [interleave List.length]. cbn [List.length] in Hl.
  rewrite (IH l2) by lia. lia.
Qed.

Lemma interleave_nth : forall (A : Type) (l1 l2 : list A) (j : nat),
  (j < List.length l1)%nat ->
  List.length l1 = List.length l2 ->
  nth_error l1 j = nth_error (interleave l1 l2) (2 * j)
  /\ nth_error l2 j = nth_error (interleave l1 l2) (2 * j + 1).
Proof.
  induction l1 as [|a l1 IH1]; intros l2 j Hj Hl; [cbn in Hj; lia|].
  destruct l2 as [|b l2]; [discriminate|].
  destruct j as [|j].
  - split; reflexivity.
  - cbn [List.length] in Hj, Hl.
    destruct (IH1 l2 j) as [E1 E2]; [lia | lia |].
    replace (2 * S j)%nat with (S (S (2 * j))) by lia.
    replace (S (S (2 * j)) + 1)%nat with (S (S (2 * j + 1))) by lia.
    cbn [interleave nth_error]. split; assumption.
Qed.

(** C9: [scatter] keeps the whole flat sequence when its length is even
    and all but its last value when odd; the kept values alternate between
    [xs] (even positions) and [ys] (odd positions), and the two sequences
    have the same length. *)
Theorem scatter_points_alternate : forall (A : Type) (points : list A),
  let xs := fst (scatter_points points) in
  let ys := snd (scatter_points points) in
  List.length xs = List.length ys
  /\ interleave xs ys
     = (if Nat.odd (List.length points) then List.removelast points else points)
  /\ (forall i, (i < List.length xs)%nat ->
        nth_error xs i = nth_error points (2 * i)
        /\ nth_error ys i = nth_error points (2 * i + 1)).
Proof.
  intros A points. cbv zeta.
  unfold scatter_points. cbv zeta. cbn [fst snd].
  rewrite kept_count. unfold slice_step2.
  set (kept := List.firstn (2 * Nat.div2 (List.length points)) points).
  change (List.skipn 0 kept) with kept.
  set (xs := every_other kept). set (ys := every_other (List.skipn 1 kept)).
  assert (Hev : Nat.even (List.length kept) = true).
  { unfold kept. rewrite length_firstn.
    pose proof (Nat.div2_odd (List.length points)) as Hodd.
    replace (Nat.min (2 * Nat.div2 (List.length points)) (List.length points))
      with (2 * Nat.div2 (List.length points))%nat
      by (destruct (Nat.odd (List.length points)); cbn [Nat.b2n] in Hodd; lia).
    rewrite Nat.even_mul. reflexivity. }
  destruct (every_other_even_split A kept Hev) as [Hlen Hint].
  fold xs in Hlen, Hint. fold ys in Hlen, Hint.
  split; [exact Hlen|]. split.
  - rewrite Hint. unfold kept. apply kept_points.
  - intros i Hi.
    destruct (interleave_nth A xs ys i Hi Hlen) as [E1 E2].
    rewrite Hint in E1, E2.
    assert (Hk : forall j, (j < List.length kept)%nat ->
               nth_error kept j = nth_error points j).
    { intros j Hj. unfold kept in *. rewrite nth_error_firstn.
      rewrite length_firstn in Hj.
      destruct (Nat.ltb_spec j (2 * Nat.div2 (List.length points))); [reflexivity | lia]. }
    assert (Hlk : List.length kept = (2 * List.length xs)%nat).
    { rewrite <- Hint. apply interleave_length. exact Hlen. }
    rewrite E1, E2. split; apply Hk; lia.
Qed.

Example scatter_points_five :
  scatter_points [1; 2; 3; 4; 5] = ([1; 3], [2; 4]).
Proof. reflexivity. Qed.

(** ** _color_brew *)

(** C2 (the code departs from the claim and from its own docstring):
    for [n = 161] the palette has 162 colours, one more than the [n] the
    docstring promises, because [360 / (360. / 161)] rounds to a float
    just above 161 and [arange] takes its ceiling as the length. *)
Theorem color_brew_161_has_162_colors :
  exists palette, _color_brew 161 = Ok palette /\ List.length palette = 162%nat.
Proof.
  eexists. split; [vm_compute; reflexivity | reflexivity].
Qed.

Lemma arange_length_161 :
  (let? step := fdiv (literal 360 1) (nearest_float 161) in
   arange_length 25 385 step) = Ok 162.
Proof. vm_compute. reflexivity. Qed.

(** Up to 160 classes the palette has exactly [n] colours with every
    channel in [0, 255]. *)
Lemma color_brew_up_to_160 : forall n, 1 <= n <= 160 -> palette_ok n = true.
Proof.
  assert (H : List.forallb palette_ok (List.map Z.of_nat (List.seq 1 160)) = true)
    by (vm_compute; reflexivity).
  intros n Hn. rewrite forallb_forall in H. apply H.
  apply in_map_iff. exists (Z.to_nat n). split; [lia|].
  apply in_seq. lia.
Qed.

(** Every integer hue the loop can meet gives three channels in
    [0, 255]. *)
Lemma hue_rgb_channels : forall h, 25 <= h <= 385 ->
  exists rgb, hue_rgb h = Ok rgb /\ channels_ok rgb = true.
Proof.
  assert (H : List.forallb
                (fun h => match hue_rgb h with
                          | Ok rgb => channels_ok rgb
                          | Raise _ => false
                          end)
                (List.map Z.of_nat (List.seq 25 361)) = true)
    by (vm_compute; reflexivity).
  intros h Hh. rewrite forallb_forall in H.
  specialize (H h). destruct (hue_rgb h) as [rgb|e].
  - exists rgb. split; [reflexivity|]. apply H.
    apply in_map_iff. exists (Z.to_nat h). split; [lia|]. apply in_seq. lia.
  - assert (false = true); [|discriminate]. apply H.
    apply in_map_iff. exists (Z.to_nat h). split; [lia|]. apply in_seq. lia.
Qed.

Lemma color_brew_1 : _color_brew 1 = Ok [[229; 129; 57]].
Proof. vm_compute. reflexivity. Qed.

(** ** The monad of the renderer *)

Lemma bind_ok : forall (A B : Type) (m : M A) (k : A -> M B) w b w',
  bind m k w = (Ok b, w') ->
  exists a w1, m w = (Ok a, w1) /\ k a w1 = (Ok b, w').
Proof.
  intros A B m k w b w' H. unfold bind in H.
  destruct (m w) as [[a|e] w1]; [eauto | discriminate].
Qed.

Lemma lift_ok : forall (A : Type) (r : result A) w a w',
  lift r w = (Ok a, w') -> r = Ok a /\ w' = w.
Proof. unfold lift. intros A r w a w' H. inversion H. auto. Qed.

Lemma random_choice_digits : forall w,
  exists c, random_choice digits w
            = (Ok c, mkWorld (fun k => rng w (S k)) (written w)).
Proof.
  intros w. unfold random_choice, bind, draw, lift.
  destruct (nth_error digits (Nat.modulo (rng w 0%nat) (List.length digits)))
    as [c|] eqn:E.
  - exists c. reflexivity.
  - apply nth_error_None in E.
    pose proof (Nat.mod_upper_bound (rng w 0%nat) (List.length digits)) as Hb.
    cbn [digits List.length] in *. lia.
Qed.

Lemma choices_digits : forall size w,
  exists cs g, choices size digits w = (Ok cs, mkWorld g (written w)).
Proof.
  induction size as [|size IH]; intros w.
  - exists [], (rng w). destruct w. reflexivity.
  - destruct (random_choice_digits w) as [c Ec].
    destruct (IH (mkWorld (fun k => rng w (S k)) (written w))) as [cs [g Ecs]].
    exists (c :: cs), g. cbn [choices]. unfold bind at 1. rewrite Ec.
    unfold bind at 1. rewrite Ecs. reflexivity.
Qed.

(** [node_id] always returns and writes nothing. *)
Lemma node_id_ok : forall w,
  exists uid g, node_id w = (Ok uid, mkWorld g (written w)).
Proof.
  intros w. destruct (choices_digits 20 w) as [cs [g E]].
  exists (join_empty cs), g. unfold node_id, bind. rewrite E. reflexivity.
Qed.

Lemma create_unfold : forall feature_names class_names colors node,
  create feature_names class_names colors node =
  (uid <- node_id ;;
   label <- lift (node_to_str feature_names class_names node) ;;
   color <- lift (get_node_color colors node) ;;
   write (NodeStmt uid label color) ;;;
   (if negb (is_leaf node) then
      match left node with
      | Some l =>
          l_uid <- create feature_names class_names colors l ;;
          write (EdgeStmt uid l_uid "yes")
      | None => ret tt
      end ;;;
      match right node with
      | Some r =>
          r_uid <- create feature_names class_names colors r ;;
          write (EdgeStmt uid r_uid "no")
      | None => ret tt
      end
    else ret tt) ;;;
   ret uid).
Proof. intros. destruct node. reflexivity. Qed.

(** ** create: the statements of a subtree *)

Section CreateFacts.

Variable feature_names : list string.
Variable class_names : list string.
Variable colors : list (list Z).

Abbreviation create' := (create feature_names class_names colors).
Abbreviation Emits' := (Emits feature_names class_names colors).
Abbreviation EmitsEdge' := (EmitsEdge feature_names class_names colors).
Abbreviation child_call' := (child_call feature_names class_names colors).
Abbreviation emits_on_success' :=
  (emits_on_success feature_names class_names colors).

Lemma child_call_emits : forall c uid label w w',
  on_child emits_on_success' c ->
  child_call' c uid label w = (Ok tt, w') ->
  exists out, written w' = written w ++ out /\ EmitsEdge' c uid label out.
Proof.
  intros [t|] uid label w w' IH H; cbn [child_call on_child] in *.
  - apply bind_ok in H. destruct H as [c_uid [w1 [Hc Hw]]].
    destruct (IH w c_uid w1 Hc) as [out [Eout Hem]].
    unfold write in Hw. inversion Hw; subst. cbn [written].
    exists (out ++ [EdgeStmt uid c_uid label]). split.
    + rewrite Eout. rewrite app_assoc. reflexivity.
    + constructor. exact Hem.
  - unfold ret in H. inversion H; subst.
    exists []. split; [rewrite app_nil_r; reflexivity | constructor].
Qed.

Lemma create_emits : forall node, emits_on_success' node.
Proof.
  induction node as [node IHl IHr] using TreeNode_ind.
  intros w uid w' H. rewrite create_unfold in H.
  apply bind_ok in H. destruct H as [uid0 [w1 [Hid H]]].
  destruct (node_id_ok w) as [uid1 [g Eid]]. rewrite Eid in Hid.
  inversion Hid; subst uid1 w1; clear Hid.
  apply bind_ok in H. destruct H as [label [w2 [Hlabel H]]].
  apply lift_ok in Hlabel. destruct Hlabel as [Hlabel ->].
  apply bind_ok in H. destruct H as [color [w3 [Hcolor H]]].
  apply lift_ok in Hcolor. destruct Hcolor as [Hcolor ->].
  apply bind_ok in H. destruct H as [[] [w4 [Hwrite H]]].
  unfold write in Hwrite. inversion Hwrite; subst w4; clear Hwrite.
  cbn [rng written] in H.
  apply bind_ok in H. destruct H as [[] [w5 [Hblock H]]].
  unfold ret in H. inversion H; subst uid0 w5; clear H.
  destruct (is_leaf node) eqn:Eleaf; cbn [negb] in Hblock.
  - unfold ret in Hblock. inversion Hblock; subst w'. cbn [written].
    exists [NodeStmt uid label color]. split; [reflexivity|].
    apply Emits_leaf; assumption.
  - apply bind_ok in Hblock. destruct Hblock as [[] [w6 [Hleft Hright]]].
    apply (child_call_emits (left node) uid "yes") in Hleft; [|exact IHl].
    apply (child_call_emits (right node) uid "no") in Hright; [|exact IHr].
    destruct Hleft as [ls [Els Hls]]. destruct Hright as [rs [Ers Hrs]].
    cbn [written] in Els.
    exists (NodeStmt uid label color :: ls ++ rs). split.
    + rewrite Ers, Els. rewrite <- !app_assoc. reflexivity.
    + apply Emits_internal; assumption.
Qed.

(** The edge labels of an emitted sequence are those the tree calls
    for. *)
Lemma edge_stmts_app : forall cs1 cs2,
  edge_stmts (cs1 ++ cs2) = edge_stmts cs1 ++ edge_stmts cs2.
Proof. intros. unfold edge_stmts. apply flat_map_app. Qed.

Lemma node_stmts_app : forall cs1 cs2,
  node_stmts (cs1 ++ cs2) = node_stmts cs1 ++ node_stmts cs2.
Proof. intros. unfold node_stmts. apply flat_map_app. Qed.

Lemma emits_edge_labels : forall node uid out,
  Emits' node uid out ->
  List.map snd (edge_stmts out) = edge_labels node.
Proof.
  fix IH 4.
  intros node uid out H. destruct H as [node uid label color Eleaf _ _
                                       | node uid label color ls rs Eleaf _ _ Hl Hr].
  - destruct node; cbn in *; subst; reflexivity.
  - assert (Hchild : forall c u lab cs, EmitsEdge' c u lab cs ->
              List.map snd (edge_stmts cs)
              = match c with
                | Some t => edge_labels t ++ [lab]
                | None => []
                end).
    { intros c u lab cs Hc. destruct Hc as [u lab | t u lab c_uid out' Hem].
      - reflexivity.
      - rewrite edge_stmts_app, map_app. rewrite (IH _ _ _ Hem). reflexivity. }
    change (NodeStmt uid label color :: ls ++ rs)
      with ([NodeStmt uid label color] ++ ls ++ rs).
    rewrite !edge_stmts_app, !map_app.
    rewrite (Hchild _ _ _ _ Hl), (Hchild _ _ _ _ Hr).
    destruct node; cbn in *; subst; reflexivity.
Qed.

(** A renderable tree is rendered: [create] returns an identifier. *)
Lemma create_renderable : forall node,
  renderable feature_names class_names colors node = true ->
  forall w, exists uid w', create' node w = (Ok uid, w').
Proof.
  induction node as [node IHl IHr] using TreeNode_ind.
  intros Hr w. rewrite create_unfold.
  destruct (node_id_ok w) as [uid [g Eid]].
  unfold bind at 1. rewrite Eid.
  destruct node as [leaf f v gi cs l r]. cbn [renderable] in Hr.
  cbn [is_leaf left right] in *.
  destruct (node_to_str feature_names class_names (mkNode leaf f v gi cs l r))
    as [label|] eqn:El; [|discriminate].
  destruct (get_node_color colors (mkNode leaf f v gi cs l r))
    as [color|] eqn:Ec; [|discriminate].
  unfold bind at 1, lift at 1. unfold bind at 1, lift at 1.
  unfold bind at 1, write at 1. cbn [rng written].
  destruct leaf; cbn [negb].
  - unfold bind, ret. eauto.
  - apply andb_prop in Hr. destruct Hr as [Hl Hr].
    set (w0 := mkWorld g (written w ++ [NodeStmt uid label color])).
    assert (Hleft : exists w1, child_call' l uid "yes" w0 = (Ok tt, w1)).
    { destruct l as [t|]; cbn [child_call on_child] in *.
      - destruct (IHl Hl w0) as [lu [w1 E1]].
        unfold bind. rewrite E1. unfold write. eauto.
      - unfold ret. eauto. }
    destruct Hleft as [w1 E1].
    assert (Hright : exists w2, child_call' r uid "no" w1 = (Ok tt, w2)).
    { destruct r as [t|]; cbn [child_call on_child] in *.
      - destruct (IHr Hr w1) as [ru [w2 E2]].
        unfold bind. rewrite E2. unfold write. eauto.
      - unfold ret. eauto. }
    destruct Hright as [w2 E2].
    fold (child_call' l uid "yes"). fold (child_call' r uid "no").
    unfold bind at 1. unfold bind at 1. fold w0. rewrite E1, E2.
    unfold ret. eauto.
Qed.

End CreateFacts.

Lemma emits_edge_absent : forall fn cn colors uid label cs,
  EmitsEdge fn cn colors None uid label cs -> cs = [].
Proof. intros fn cn colors uid label cs H. inversion H. reflexivity. Qed.

Lemma emits_edge_present : forall fn cn colors child uid label cs,
  EmitsEdge fn cn colors (Some child) uid label cs ->
  exists child_uid out,
    Emits fn cn colors child child_uid out
    /\ cs = out ++ [EdgeStmt uid child_uid label].
Proof. intros fn cn colors child uid label cs H. inversion H; subst. eauto. Qed.

(** C6: when [create] returns for a node, what it wrote is the node's
    statement followed, for each child that is present, by the child's
    statements and one edge from the node to the child, labelled "yes"
    for the left child and "no" for the right one; an absent child and a
    leaf give no edge.  So the edge labels are exactly those the tree
    calls for, a leaf writes no edge, and a node without left child whose
    right child is present writes, after the right subtree, the single
    edge "no". *)
Theorem create_edges_follow_children :
  forall feature_names class_names colors node w uid w',
  create feature_names class_names colors node w = (Ok uid, w') ->
  exists out,
    written w' = written w ++ out
    /\ Emits feature_names class_names colors node uid out
    /\ List.map snd (edge_stmts out) = edge_labels node
    /\ (is_leaf node = true -> edge_stmts out = [])
    /\ (is_leaf node = false -> left node = None ->
        forall r, right node = Some r ->
        exists label color r_uid out_r,
          Emits feature_names class_names colors r r_uid out_r
          /\ out = NodeStmt uid label color :: out_r ++ [EdgeStmt uid r_uid "no"]).
Proof.
  intros fn cn colors node w uid w' H.
  destruct (create_emits fn cn colors node w uid w' H) as [out [Eout Hem]].
  exists out. split; [exact Eout|]. split; [exact Hem|].
  pose proof (emits_edge_labels fn cn colors node uid out Hem) as Hlabels.
  split; [exact Hlabels|]. split.
  - intros Hleaf. destruct node; cbn in Hleaf; subst.
    cbn in Hlabels. destruct (edge_stmts out); [reflexivity | discriminate].
  - intros Hleaf Hleft r Hright.
    destruct Hem as [node uid label color Eleaf _ _
                    | node uid label color ls rs Eleaf _ _ Hl Hr];
      [congruence|].
    rewrite Hleft in Hl. rewrite Hright in Hr.
    apply emits_edge_absent in Hl. subst ls.
    apply emits_edge_present in Hr. destruct Hr as [r_uid [out_r [Hem ->]]].
    exists label, color, r_uid, out_r. split; [assumption | reflexivity].
Qed.

Lemma create_edges_follow_children_witness :
  let leaf := mkNode true 0 (PInt 1) fzero [(1, 4)] None None in
  let root := mkNode false 0 (PFloat (literal 5 2)) (literal 1 2)
                     [(0, 5); (1, 4)] None (Some leaf) in
  let palette := [[229; 129; 57]; [57; 157; 229]] in
  let w := mkWorld (fun k => k) [] in
  let run := create ["petal"] ["A"; "B"] palette root w in
  fst run = Ok "01234567890123456789"
  /\ edge_stmts (written (snd run))
     = [("01234567890123456789", "01234567890123456789", "no")]
  /\ exists out,
       written (snd run) = written w ++ out
       /\ List.map snd (edge_stmts out) = ["no"].
Proof.
  intros leaf root palette w run.
  assert (E : run = (Ok "01234567890123456789", snd run))
    by (vm_compute; reflexivity).
  split; [vm_compute; reflexivity|]. split; [vm_compute; reflexivity|].
  destruct (create_edges_follow_children
              ["petal"] ["A"; "B"] palette root w _ _ E)
    as [out [Eout [_ [Hlabels _]]]].
  exists out. split; [exact Eout | exact Hlabels].
Defined.

(** ** create_graph *)

(** The traversal that [create_graph] runs after its two header lines,
    and what the call leaves behind in each case. *)
Lemma create_graph_unfold :
  forall random openable tree feature_names class_names output_file palette fp,
  _color_brew (Z.of_nat (List.length class_names)) = Ok palette ->
  open_fp openable output_file = Ok fp ->
  create_graph random openable tree feature_names class_names output_file =
  match create feature_names class_names palette tree (mkWorld random header) with
  | (Ok _, w) =>
      mkOutcome
        match output_file with
        | None => Ok (render (written w ++ [Text "}"]))
        | Some _ => Raise AttributeError
        end
        (written w ++ [Text "}"])
        match output_file with
        | None => None
        | Some path => Some (path, render (written w ++ [Text "}"]))
        end
  | (Raise e, w) =>
      mkOutcome (Raise e) (written w)
        match output_file with
        | None => None
        | Some path => Some (path, render (written w))
        end
  end.
Proof.
  intros random openable tree fn cn output_file palette fp Hp Hopen.
  unfold create_graph. rewrite Hp, Hopen.
  assert (Hfp : fp = match output_file with
                     | None => StringIO
                     | Some path => TextFile path
                     end).
  { unfold open_fp in Hopen. destruct output_file as [path|].
    - destruct (openable path); [inversion Hopen; reflexivity | discriminate].
    - inversion Hopen. reflexivity. }
  subst fp.
  unfold bind at 1, write at 1. cbn [rng written].
  unfold bind at 1, write at 1. cbn [rng written].
  change (([] ++ [Text ("digraph Tree {" ++ nl)])
             ++ [Text ("node [" ++ String.concat ", " styles ++ "];" ++ nl)])
    with header.
  unfold bind at 1.
  destruct (create fn cn palette tree (mkWorld random header)) as [[uid|e] w].
  - unfold bind, write, getvalue. cbn [rng written].
    destruct output_file; reflexivity.
  - destruct output_file; reflexivity.
Qed.

(** A path that cannot be opened: [open] raises before anything is
    written, and nothing is left at the path. *)
Lemma create_graph_unopenable :
  forall random openable tree feature_names class_names path palette,
  _color_brew (Z.of_nat (List.length class_names)) = Ok palette ->
  openable path = false ->
  create_graph random openable tree feature_names class_names (Some path)
  = mkOutcome (Raise OSError) [] None.
Proof.
  intros random openable tree fn cn path palette Hp Hopen.
  unfold create_graph, open_fp. rewrite Hp, Hopen. reflexivity.
Qed.

(** C1 (the code departs from the claim): with an [output_file] the call
    never returns the text.  Whatever the tree, the tables and the file
    system, the result is an exception; and whenever the same call
    without [output_file] returns a text, the call with a path that can
    be opened writes that very text to the path and then raises
    AttributeError, a text file having no [getvalue], while on a path
    that cannot be opened it raises at [open] and leaves nothing. *)
Theorem create_graph_with_path_never_returns :
  forall random openable tree feature_names class_names path,
  (forall text,
     returned (create_graph random openable tree feature_names class_names
                            (Some path))
     <> Ok text)
  /\ (forall text,
        returned (create_graph random openable tree feature_names class_names None)
        = Ok text ->
        if openable path then
          returned (create_graph random openable tree feature_names class_names
                                 (Some path))
          = Raise AttributeError
          /\ saved (create_graph random openable tree feature_names class_names
                                 (Some path))
             = Some (path, text)
        else
          create_graph random openable tree feature_names class_names (Some path)
          = mkOutcome (Raise OSError) [] None).
Proof.
  intros random openable tree fn cn path.
  destruct (_color_brew (Z.of_nat (List.length cn))) as [palette|e] eqn:Hp.
  - rewrite (create_graph_unfold random openable tree fn cn None palette StringIO Hp eq_refl).
    destruct (openable path) eqn:Hopen.
    + assert (Ho : open_fp openable (Some path) = Ok (TextFile path))
        by (unfold open_fp; rewrite Hopen; reflexivity).
      rewrite (create_graph_unfold random openable tree fn cn (Some path) palette
                 (TextFile path) Hp Ho).
      destruct (create fn cn palette tree (mkWorld random header)) as [[uid|e] w];
        cbn [returned saved].
      * split; [discriminate|]. intros text H. inversion H. auto.
      * split; [discriminate|]. discriminate.
    + rewrite (create_graph_unopenable random openable tree fn cn path palette Hp Hopen).
      cbn [returned]. split; [discriminate|]. intros text _. reflexivity.
  - unfold create_graph. rewrite Hp. cbn [returned saved].
    split; [discriminate|]. discriminate.
Qed.

Example create_graph_single_leaf_with_path :
  let tree := mkNode true 0 (PInt 0) fzero [(0, 3)] None None in
  returned (create_graph (fun k => k) (fun _ => true) tree [] ["A"] (Some "tree.dot"))
  = Raise AttributeError
  /\ returned (create_graph (fun k => k) (fun _ => true) tree [] ["A"] None)
     = Ok (render (header ++ [NodeStmt "01234567890123456789" "A" "#e58139";
                              Text "}"])).
Proof. split; vm_compute; reflexivity. Qed.

(** C7: a tree that is a single leaf of class index 0, rendered with
    [class_names = ["A"]]: after the two header lines the output holds
    one node statement, labelled "A", then the closing brace; no edge
    statement. *)
Theorem single_leaf_graph :
  forall random openable feature gini counts left right feature_names,
  let tree := mkNode true feature (PInt 0) gini counts left right in
  let o := create_graph random openable tree feature_names ["A"] None in
  exists uid color,
    fp_written o = header ++ [NodeStmt uid "A" color; Text "}"]
    /\ returned o = Ok (render (fp_written o))
    /\ node_stmts (fp_written o) = [(uid, "A", color)]
    /\ edge_stmts (fp_written o) = [].
Proof.
  intros random openable feature gini counts left right fn tree o.
  assert (Hp : _color_brew (Z.of_nat (List.length ["A"])) = Ok [[229; 129; 57]])
    by exact color_brew_1.
  pose proof (create_graph_unfold random openable tree fn ["A"] None _ StringIO
                Hp eq_refl) as Hcg.
  fold o in Hcg. rewrite create_unfold in Hcg.
  destruct (node_id_ok (mkWorld random header)) as [uid [g Eid]].
  unfold bind at 1 in Hcg. rewrite Eid in Hcg.
  assert (Hl : node_to_str fn ["A"] tree = Ok "A") by reflexivity.
  assert (Hc : get_node_color [[229; 129; 57]] tree = Ok "#e58139") by reflexivity.
  rewrite Hl, Hc in Hcg.
  change (is_leaf tree) with true in Hcg.
  cbn [negb bind lift write ret rng written] in Hcg.
  exists uid, "#e58139". rewrite Hcg. cbn [fp_written returned].
  split; [reflexivity|]. split; [reflexivity|]. split; reflexivity.
Qed.

(** ** Two calls of the renderer *)

Lemma same_shape_write : forall c1 c2 w1 w2,
  erase_ids c1 = erase_ids c2 ->
  same_shape w1 w2 ->
  same_shape (snd (write c1 w1)) (snd (write c2 w2)).
Proof.
  intros c1 c2 w1 w2 Hc Hw. unfold same_shape, write in *. cbn [snd written].
  rewrite !map_app. cbn [List.map]. rewrite Hc, Hw. reflexivity.
Qed.

Lemma agree_ret : forall (A : Type) (a1 a2 : A), agree (ret a1) (ret a2).
Proof. intros A a1 a2 w1 w2 Hw. cbn. auto. Qed.

Lemma agree_lift : forall (A : Type) (r : result A), agree (lift r) (lift r).
Proof.
  intros A r w1 w2 Hw. cbn. split; [|exact Hw].
  destruct r; cbn; auto.
Qed.

Lemma agree_write : forall c1 c2,
  erase_ids c1 = erase_ids c2 -> agree (write c1) (write c2).
Proof.
  intros c1 c2 Hc w1 w2 Hw. split; [exact I|].
  apply same_shape_write; assumption.
Qed.

Lemma agree_bind : forall (A B : Type) (m1 m2 : M A) (k1 k2 : A -> M B),
  agree m1 m2 ->
  (forall a1 a2, agree (k1 a1) (k2 a2)) ->
  agree (bind m1 k1) (bind m2 k2).
Proof.
  intros A B m1 m2 k1 k2 Hm Hk w1 w2 Hw. unfold bind.
  destruct (Hm w1 w2 Hw) as [Hr Hs].
  destruct (m1 w1) as [[a1|e1] w1']; destruct (m2 w2) as [[a2|e2] w2'];
    cbn [fst snd alike] in *; try contradiction.
  - apply Hk. exact Hs.
  - auto.
Qed.

Lemma agree_node_id : agree node_id node_id.
Proof.
  intros w1 w2 Hw.
  destruct (node_id_ok w1) as [u1 [g1 E1]].
  destruct (node_id_ok w2) as [u2 [g2 E2]].
  rewrite E1, E2. cbn. split; [exact I | exact Hw].
Qed.

Lemma agree_bind_lift : forall (A B : Type) (r : result A) (k1 k2 : A -> M B),
  (forall a, agree (k1 a) (k2 a)) ->
  agree (bind (lift r) k1) (bind (lift r) k2).
Proof.
  intros A B r k1 k2 Hk w1 w2 Hw. unfold bind, lift.
  destruct r as [a|e]; [apply Hk; exact Hw | cbn; auto].
Qed.

Lemma agree_child : forall fn cn colors c uid1 uid2 label,
  on_child (fun t => agree (create fn cn colors t) (create fn cn colors t)) c ->
  agree (child_call fn cn colors c uid1 label)
        (child_call fn cn colors c uid2 label).
Proof.
  intros fn cn colors [t|] uid1 uid2 label IH; cbn [child_call on_child] in *.
  - apply agree_bind; [exact IH | intros c1 c2].
    apply agree_write. reflexivity.
  - apply agree_ret.
Qed.

Lemma agree_create : forall feature_names class_names colors node,
  agree (create feature_names class_names colors node)
        (create feature_names class_names colors node).
Proof.
  intros fn cn colors.
  induction node as [node IHl IHr] using TreeNode_ind.
  rewrite create_unfold.
  apply agree_bind; [apply agree_node_id | intros uid1 uid2].
  apply agree_bind_lift; intros label.
  apply agree_bind_lift; intros color.
  apply agree_bind; [apply agree_write; reflexivity | intros _ _].
  apply agree_bind; [|intros _ _; apply agree_ret].
  destruct (is_leaf node); cbn [negb]; [apply agree_ret|].
  apply agree_bind; [|intros _ _].
  - apply (agree_child fn cn colors (left node) uid1 uid2 "yes"). exact IHl.
  - apply (agree_child fn cn colors (right node) uid1 uid2 "no"). exact IHr.
Qed.

Lemma labels_colors_erased : forall cs,
  labels_colors cs = labels_colors (List.map erase_ids cs).
Proof.
  induction cs as [|c cs IH]; [reflexivity|].
  unfold labels_colors, node_stmts in *. cbn [List.map List.flat_map].
  rewrite !map_app, IH. destruct c; reflexivity.
Qed.

Lemma same_shape_snoc : forall cs1 cs2 c,
  List.map erase_ids cs1 = List.map erase_ids cs2 ->
  List.map erase_ids (cs1 ++ [c]) = List.map erase_ids (cs2 ++ [c]).
Proof. intros cs1 cs2 c H. rewrite !map_app, H. reflexivity. Qed.

(** C3: two calls of the renderer on the same tree and name tables, with
    whatever random draws each call meets, write outputs that are equal
    once the random identifiers are blanked; in particular their node
    statements carry the same labels and the same fill colours, node for
    node in emission order, and the two calls end alike (both return, or
    both raise the same exception). *)
Theorem render_twice_same_labels_and_colors :
  forall random1 random2 openable tree feature_names class_names output_file,
  let o1 := create_graph random1 openable tree feature_names class_names
                         output_file in
  let o2 := create_graph random2 openable tree feature_names class_names
                         output_file in
  labels_colors (fp_written o1) = labels_colors (fp_written o2)
  /\ List.map erase_ids (fp_written o1) = List.map erase_ids (fp_written o2)
  /\ alike (returned o1) (returned o2).
Proof.
  intros random1 random2 openable tree fn cn output_file o1 o2.
  assert (H : List.map erase_ids (fp_written o1) = List.map erase_ids (fp_written o2)
              /\ alike (returned o1) (returned o2)).
  { subst o1 o2.
    destruct (_color_brew (Z.of_nat (List.length cn))) as [palette|e] eqn:Hp;
      [|unfold create_graph; rewrite Hp; cbn; auto].
    destruct (open_fp openable output_file) as [fp|e] eqn:Hopen;
      [|unfold create_graph; rewrite Hp, Hopen; cbn; auto].
    - rewrite !(create_graph_unfold _ _ _ _ _ _ palette fp Hp Hopen).
      destruct (agree_create fn cn palette tree
                  (mkWorld random1 header) (mkWorld random2 header))
        as [Hr Hs]; [reflexivity|].
      destruct (create fn cn palette tree (mkWorld random1 header)) as [[u1|e1] w1];
        destruct (create fn cn palette tree (mkWorld random2 header)) as [[u2|e2] w2];
        cbn [fst snd alike returned fp_written] in *; try contradiction.
      + split; [apply same_shape_snoc; exact Hs|].
        destruct output_file; cbn; auto.
      + split; [exact Hs | exact Hr]. }
  destruct H as [Hshape Hend].
  split; [|split; assumption].
  rewrite (labels_colors_erased (fp_written o1)), (labels_colors_erased (fp_written o2)).
  rewrite Hshape. reflexivity.
Qed.

(** ** Truncating a float quotient of integers *)

Lemma shifted_refl : forall a, 0 <= shr_m a -> shifted 0 a a.
Proof.
  intros a Ha. unfold shifted, round_bit. rewrite Z.pow_0_r, !Z.mul_1_r.
  repeat split; auto with zarith. intros ->. lia.
Qed.

Lemma shifted_trans : forall t1 t2 a b c,
  0 <= t1 -> 0 <= t2 ->
  shifted t1 a b -> shifted t2 b c -> shifted (t1 + t2) a c.
Proof.
  intros t1 t2 a b c H1 H2 [Hb [[Hab Hab'] [Hiab Hrab]]] [Hc [[Hbc Hbc'] [Hibc Hrbc]]].
  assert (P1 : 0 < 2 ^ t1) by (apply Z.pow_pos_nonneg; lia).
  assert (P2 : 0 < 2 ^ t2) by (apply Z.pow_pos_nonneg; lia).
  unfold shifted. rewrite Z.pow_add_r by lia.
  split; [exact Hc|]. split; [split; nia|]. split.
  - intros Hi. destruct (Hibc Hi) as [Hlt | Hb'].
    + left. nia.
    + destruct (Hiab Hb') as [Hlt | Ha']; [left; nia | right; exact Ha'].
  - intros Hr. specialize (Hrbc Hr). unfold round_bit in Hrbc at 1.
    destruct (shr_r b) eqn:Erb.
    + specialize (Hrab eq_refl). nia.
    + unfold round_bit. destruct (shr_r a); nia.
Qed.

Lemma shr_1_shifted : forall a, 0 <= shr_m a -> shifted 1 a (shr_1 a).
Proof.
  intros [m r s] Hm. cbn [shr_m] in Hm. unfold shifted, inexact, round_bit.
  change (2 ^ 1) with 2.
  destruct m as [|[p|p|]|p]; cbn [shr_1 shr_m shr_r shr_s orb]; try lia;
    (split; [lia|]; split; [lia|]; split;
     [ intros H; first [left; lia | right; exact H]
     | intros H; first [discriminate H | destruct r; lia] ]).
Qed.

Lemma iter_pos_shifted : forall p a,
  0 <= shr_m a -> shifted (Zpos p) a (iter_pos shr_1 p a).
Proof.
  induction p as [p IH|p IH|]; intros a Ha; cbn [iter_pos].
  - pose proof (shr_1_shifted a Ha) as H1.
    pose proof (IH (shr_1 a) (proj1 H1)) as H2.
    pose proof (IH _ (proj1 H2)) as H3.
    replace (Zpos p~1) with (1 + Zpos p + Zpos p) by lia.
    eapply shifted_trans; [lia | lia | | exact H3].
    eapply shifted_trans; [lia | lia | exact H1 | exact H2].
  - pose proof (IH a Ha) as H2.
    pose proof (IH _ (proj1 H2)) as H3.
    replace (Zpos p~0) with (Zpos p + Zpos p) by lia.
    eapply shifted_trans; [lia | lia | exact H2 | exact H3].
  - apply shr_1_shifted. exact Ha.
Qed.

Lemma shr_shifted : forall a e n,
  0 <= shr_m a ->
  shifted (Z.max 0 n) a (fst (shr a e n)) /\ snd (shr a e n) = e + Z.max 0 n.
Proof.
  intros a e n Ha. destruct n as [|p|p]; cbn [shr fst snd].
  - split; [apply shifted_refl; exact Ha | cbn; lia].
  - split; [apply iter_pos_shifted; exact Ha | lia].
  - split; [apply shifted_refl; exact Ha | cbn; lia].
Qed.

Lemma digits2_pos_lower : forall p, 2 ^ (Zpos (digits2_pos p) - 1) <= Zpos p.
Proof.
  induction p as [p IH|p IH|]; cbn [digits2_pos].
  - rewrite Pos2Z.inj_succ. replace (Z.succ (Zpos (digits2_pos p)) - 1)
      with (1 + (Zpos (digits2_pos p) - 1)) by lia.
    rewrite Z.pow_add_r by lia. lia.
  - rewrite Pos2Z.inj_succ. replace (Z.succ (Zpos (digits2_pos p)) - 1)
      with (1 + (Zpos (digits2_pos p) - 1)) by lia.
    rewrite Z.pow_add_r by lia. lia.
  - cbn. lia.
Qed.

Lemma Zdigits2_le : forall m d, 0 <= m < 2 ^ d -> 0 <= d -> Zdigits2 m <= d.
Proof.
  intros m d [Hm Hlt] Hd. destruct m as [|p|p]; cbn [Zdigits2]; [lia| |lia].
  pose proof (digits2_pos_lower p) as Hl.
  destruct (Z_le_gt_dec (Zpos (digits2_pos p)) d) as [Hle|Hgt]; [exact Hle|].
  assert (2 ^ d <= 2 ^ (Zpos (digits2_pos p) - 1)) by (apply Z.pow_le_mono_r; lia).
  lia.
Qed.

Lemma fexp_nonpos : forall m e K,
  0 <= m <= K * 2 ^ (- e) -> e <= 0 -> 0 <= K < 2 ^ 52 ->
  fexp prec emax (Zdigits2 m + e) <= 0.
Proof.
  intros m e K Hm He HK.
  assert (Hd : Zdigits2 m <= 52 - e).
  { apply Zdigits2_le; [|lia]. split; [lia|].
    replace (52 - e) with (52 + - e) by lia. rewrite Z.pow_add_r by lia.
    assert (0 < 2 ^ (- e)) by (apply Z.pow_pos_nonneg; lia). nia. }
  unfold fexp, SpecFloat.emin, prec, emax. lia.
Qed.

Lemma inexact_of_loc : forall m l,
  inexact (shr_record_of_loc m l) = true -> l <> loc_Exact.
Proof. intros m [|[| |]]; cbn; congruence. Qed.

Lemma round_nearest_even_cases : forall b,
  round_nearest_even (shr_m b) (loc_of_shr_record b) = shr_m b
  \/ (round_nearest_even (shr_m b) (loc_of_shr_record b) = shr_m b + 1
      /\ inexact b = true).
Proof.
  intros [m [|] [|]]; cbn; auto; destruct (Z.even m); auto.
Qed.

Lemma binary_round_aux_at_most : forall mx ex lx K,
  0 <= mx -> ex <= 0 -> 0 <= K < 2 ^ 52 ->
  mx <= K * 2 ^ (- ex) ->
  (lx <> loc_Exact -> mx < K * 2 ^ (- ex)) ->
  at_most K (binary_round_aux prec emax false mx ex lx).
Proof.
  intros mx ex lx K Hmx Hex HK H1 H2.
  unfold binary_round_aux, shr_fexp.
  set (a := shr_record_of_loc mx lx).
  assert (Ea : shr_m a = mx) by (subst a; destruct lx as [|[| |]]; reflexivity).
  set (n1 := fexp prec emax (Zdigits2 mx + ex) - ex).
  assert (Hn1 : n1 <= - ex).
  { pose proof (fexp_nonpos mx ex K). subst n1. lia. }
  destruct (shr_shifted a ex n1) as [Hs1 Ee1]; [lia|].
  destruct (shr a ex n1) as [b e1]. cbn [fst snd] in Hs1, Ee1.
  set (t1 := Z.max 0 n1) in *.
  destruct Hs1 as [Hb [[Hab _] [Hiab _]]]. rewrite Ea in Hab, Hiab.
  assert (Pt1 : 0 < 2 ^ t1) by (apply Z.pow_pos_nonneg; lia).
  assert (He1 : e1 <= 0) by lia.
  assert (Epow : 2 ^ (- ex) = 2 ^ (- e1) * 2 ^ t1).
  { rewrite <- Z.pow_add_r by lia. f_equal. lia. }
  assert (Pe1 : 0 < 2 ^ (- e1)) by (apply Z.pow_pos_nonneg; lia).
  assert (Hb1 : shr_m b <= K * 2 ^ (- e1)) by (rewrite Epow in H1; nia).
  assert (Hb2 : inexact b = true -> shr_m b < K * 2 ^ (- e1)).
  { intros Hi. destruct (Hiab Hi) as [Hlt | Ha].
    - rewrite Epow in H1. nia.
    - apply inexact_of_loc in Ha. specialize (H2 Ha). rewrite Epow in H2. nia. }
  set (m1 := round_nearest_even (shr_m b) (loc_of_shr_record b)).
  assert (Hm1 : 0 <= m1 <= K * 2 ^ (- e1)).
  { subst m1. destruct (round_nearest_even_cases b) as [-> | [-> Hi]]; [lia|].
    specialize (Hb2 Hi). lia. }
  set (a2 := shr_record_of_loc m1 loc_Exact).
  set (n2 := fexp prec emax (Zdigits2 m1 + e1) - e1).
  assert (Hn2 : n2 <= - e1).
  { pose proof (fexp_nonpos m1 e1 K). subst n2. lia. }
  destruct (shr_shifted a2 e1 n2) as [Hs2 Ee2]; [cbn; lia|].
  destruct (shr a2 e1 n2) as [c e2]. cbn [fst snd] in Hs2, Ee2.
  set (t2 := Z.max 0 n2) in *.
  destruct Hs2 as [Hc [[Hac _] _]]. cbn [a2 shr_record_of_loc shr_m] in Hac.
  assert (Pt2 : 0 < 2 ^ t2) by (apply Z.pow_pos_nonneg; lia).
  assert (He2 : e2 <= 0) by lia.
  assert (Epow2 : 2 ^ (- e1) = 2 ^ (- e2) * 2 ^ t2).
  { rewrite <- Z.pow_add_r by lia. f_equal. lia. }
  assert (Pe2 : 0 < 2 ^ (- e2)) by (apply Z.pow_pos_nonneg; lia).
  assert (Hc1 : shr_m c <= K * 2 ^ (- e2)) by (rewrite Epow2 in Hm1; nia).
  destruct (shr_m c) as [|m|m]; cbn [at_most]; [exact I | | lia].
  replace (e2 <=? emax - prec) with true
    by (symmetry; apply Z.leb_le; unfold emax, prec; lia).
  cbn [at_most]. split; assumption.
Qed.

Lemma new_location_exact : forall nb k, new_location nb k <> loc_Exact -> k <> 0.
Proof.
  intros nb k H Hk. subst k. apply H.
  unfold new_location, new_location_even, new_location_odd.
  destruct (Z.even nb); reflexivity.
Qed.

Lemma SFdiv_at_most : forall p q K,
  Zpos p <= K * Zpos q -> 0 <= K < 2 ^ 52 ->
  at_most K (SFdiv prec emax (S754_finite false p 0) (S754_finite false q 0)).
Proof.
  intros p q K Hpq HK. unfold SFdiv, SFdiv_core_binary.
  set (e' := Z.min (fexp prec emax (Zdigits2 (Zpos p) + 0 - (Zdigits2 (Zpos q) + 0)))
                   (0 - 0)).
  assert (He' : e' <= 0) by (subst e'; lia).
  set (s := 0 - 0 - e').
  set (m' := match s with
             | Zpos _ => Z.shiftl (Zpos p) s
             | Z0 => Zpos p
             | Zneg _ => 0
             end).
  assert (Em' : m' = Zpos p * 2 ^ s).
  { subst m'. destruct s as [|s'|s'] eqn:Es.
    - rewrite Z.pow_0_r. lia.
    - rewrite Z.shiftl_mul_pow2 by lia. reflexivity.
    - lia. }
  pose proof (Z_div_mod m' (Zpos q) eq_refl) as Hdm.
  destruct (Z.div_eucl m' (Zpos q)) as [qq r]. destruct Hdm as [Hm' Hr].
  assert (Ps : 0 < 2 ^ s) by (apply Z.pow_pos_nonneg; lia).
  assert (Es : 2 ^ (- e') = 2 ^ s) by (f_equal; lia).
  cbn [xorb].
  apply binary_round_aux_at_most; try assumption.
  - nia.
  - rewrite Es. nia.
  - intros Hl. apply new_location_exact in Hl. rewrite Es. nia.
Qed.

(** Non-negative [a] over positive [b] with [a <= K * b]: the true
    division returns a float whose truncation lies in [0, K]. *)
Lemma int_truediv_trunc_bounds : forall a b K,
  0 <= a -> 0 < b -> a <= K * b -> 0 <= K < 2 ^ 52 ->
  exists f t, int_truediv a b = Ok f /\ float_trunc f = Ok t /\ 0 <= t <= K.
Proof.
  intros a b K Ha Hb Hab HK.
  destruct b as [|q|q]; try lia. destruct a as [|p|p]; try lia.
  - exists (S754_zero false), 0. cbn. repeat split; lia.
  - pose proof (SFdiv_at_most p q K Hab HK) as H.
    unfold int_truediv.
    destruct (SFdiv prec emax (S754_finite false p 0) (S754_finite false q 0))
      as [sz|si| |sf m e]; cbn [at_most] in H; try contradiction.
    + exists (S754_zero sz), 0. cbn. repeat split; lia.
    + destruct sf; [contradiction|]. destruct H as [He Hm].
      exists (S754_finite false m e). eexists. split; [reflexivity|].
      split; [reflexivity|].
      assert (Pe : 0 < 2 ^ (- e)) by (apply Z.pow_pos_nonneg; lia).
      destruct (Z.leb_spec 0 e) as [Hge|Hlt].
      * assert (e = 0) by lia. subst e. cbn in Hm |- *. lia.
      * split; [apply Z.div_pos; lia|].
        apply Z.div_le_upper_bound; lia.
Qed.

Lemma digits2_pos_upper : forall p, Zpos p < 2 ^ Zpos (digits2_pos p).
Proof.
  induction p as [p IH|p IH|]; cbn [digits2_pos].
  - rewrite Pos2Z.inj_succ, Z.pow_succ_r by lia. lia.
  - rewrite Pos2Z.inj_succ, Z.pow_succ_r by lia. lia.
  - cbn. lia.
Qed.

Lemma fexp_small : forall m e j,
  0 <= m < 2 ^ (j - e) -> e <= 0 -> 0 <= j <= 52 ->
  fexp prec emax (Zdigits2 m + e) <= j - 53.
Proof.
  intros m e j Hm He Hj.
  assert (Hd : Zdigits2 m <= j - e) by (apply Zdigits2_le; lia).
  unfold fexp, SpecFloat.emin, prec, emax. lia.
Qed.

Lemma round_nearest_even_up : forall b,
  round_nearest_even (shr_m b) (loc_of_shr_record b) = shr_m b
  \/ (round_nearest_even (shr_m b) (loc_of_shr_record b) = shr_m b + 1
      /\ shr_r b = true).
Proof.
  intros [m [|] [|]]; cbn; auto; destruct (Z.even m); auto.
Qed.

Lemma binary_round_aux_floor : forall mx ex lx p0 Q k j,
  0 <= mx -> ex <= j - 53 -> 0 <= j <= 52 ->
  0 < Q < 2 ^ (53 - j) -> 0 <= k -> k + 1 <= 2 ^ j ->
  k * Q <= p0 < (k + 1) * Q ->
  mx * Q <= p0 * 2 ^ (- ex) < (mx + 1) * Q ->
  (shr_r (shr_record_of_loc mx lx) = true -> (2 * mx + 1) * Q <= 2 * (p0 * 2 ^ (- ex))) ->
  float_trunc (binary_round_aux prec emax false mx ex lx) = Ok k.
Proof.
  intros mx ex lx p0 Q k j Hmx Hex Hj HQ Hk Hkj Hp0 Hq Hr.
  unfold binary_round_aux, shr_fexp.
  set (a := shr_record_of_loc mx lx) in *.
  assert (Ea : shr_m a = mx) by (subst a; destruct lx as [|[| |]]; reflexivity).
  remember (2 ^ (- ex)) as E0 eqn:EE0.
  assert (PE0 : 0 < E0) by (subst E0; apply Z.pow_pos_nonneg; lia).
  assert (Hra : (2 * mx + round_bit a) * Q <= 2 * (p0 * E0)).
  { unfold round_bit. destruct (shr_r a); [apply Hr; reflexivity | lia]. }
  assert (F1 : mx < (k + 1) * E0) by nia.
  assert (F2 : k * E0 <= mx) by nia.
  assert (Hpow : forall u v, 0 <= u -> 0 <= v -> 2 ^ (u + v) = 2 ^ u * 2 ^ v)
    by (intros; apply Z.pow_add_r; lia).
  assert (Hj2 : 0 < 2 ^ j) by (apply Z.pow_pos_nonneg; lia).
  set (n1 := fexp prec emax (Zdigits2 mx + ex) - ex).
  assert (Hn1 : ex + Z.max 0 n1 <= j - 53).
  { assert (fexp prec emax (Zdigits2 mx + ex) <= j - 53).
    { apply fexp_small; try lia. split; [lia|].
      replace (j - ex) with (j + - ex) by lia. rewrite Hpow by lia.
      rewrite <- EE0. nia. }
    subst n1. lia. }
  destruct (shr_shifted a ex n1) as [Hs1 Ee1]; [lia|].
  destruct (shr a ex n1) as [b e1]. cbn [fst snd] in Hs1, Ee1.
  set (t1 := Z.max 0 n1) in *.
  destruct Hs1 as [Hb [[Hab Hab'] [_ Hrb]]]. rewrite Ea in Hab, Hab', Hrb.
  remember (2 ^ t1) as T1 eqn:ET1.
  assert (PT1 : 0 < T1) by (subst T1; apply Z.pow_pos_nonneg; lia).
  remember (2 ^ (- e1)) as E1 eqn:EE1.
  assert (PE1 : 0 < E1) by (subst E1; apply Z.pow_pos_nonneg; lia).
  assert (Epow : E0 = E1 * T1).
  { subst E0 E1 T1. rewrite <- Hpow by lia. f_equal. lia. }
  assert (HE1Q : Q < E1).
  { subst E1. assert (2 ^ (53 - j) <= 2 ^ (- e1)) by (apply Z.pow_le_mono_r; lia). lia. }
  assert (G1 : shr_m b < (k + 1) * E1) by (rewrite Epow in F1; nia).
  assert (G2 : k * E1 <= shr_m b) by (rewrite Epow in F2; nia).
  assert (G3 : shr_r b = true -> shr_m b + 1 < (k + 1) * E1).
  { intros Hrb'. specialize (Hrb Hrb').
    assert (H3 : (2 * shr_m b + 1) * T1 * Q <= 2 * (p0 * E0)) by nia.
    rewrite Epow in H3.
    assert (H4 : (2 * shr_m b + 1) * Q <= 2 * (p0 * E1)) by nia.
    assert (H5 : p0 * E1 <= ((k + 1) * Q - 1) * E1) by nia.
    destruct (Z_lt_ge_dec (shr_m b + 1) ((k + 1) * E1)) as [Hlt|Hge]; [exact Hlt|].
    exfalso. nia. }
  set (m1 := round_nearest_even (shr_m b) (loc_of_shr_record b)).
  assert (Hm1 : k * E1 <= m1 < (k + 1) * E1).
  { subst m1. destruct (round_nearest_even_up b) as [-> | [-> Hi]]; [lia|].
    specialize (G3 Hi). lia. }
  assert (Hm1' : 0 <= m1) by nia.
  set (a2 := shr_record_of_loc m1 loc_Exact).
  set (n2 := fexp prec emax (Zdigits2 m1 + e1) - e1).
  assert (Hn2 : e1 + Z.max 0 n2 <= j - 53).
  { assert (fexp prec emax (Zdigits2 m1 + e1) <= j - 53).
    { apply fexp_small; try lia. split; [lia|].
      replace (j - e1) with (j + - e1) by lia. rewrite Hpow by lia.
      rewrite <- EE1. nia. }
    subst n2. lia. }
  destruct (shr_shifted a2 e1 n2) as [Hs2 Ee2]; [cbn; lia|].
  destruct (shr a2 e1 n2) as [c e2]. cbn [fst snd] in Hs2, Ee2.
  set (t2 := Z.max 0 n2) in *.
  destruct Hs2 as [Hc [[Hac Hac'] _]]. cbn [a2 shr_record_of_loc shr_m] in Hac, Hac'.
  remember (2 ^ t2) as T2 eqn:ET2.
  assert (PT2 : 0 < T2) by (subst T2; apply Z.pow_pos_nonneg; lia).
  assert (PE2 : 0 < 2 ^ (- e2)) by (apply Z.pow_pos_nonneg; lia).
  assert (Epow2 : E1 = 2 ^ (- e2) * T2).
  { subst E1 T2. rewrite <- Hpow by lia. f_equal. lia. }
  assert (K1 : shr_m c < (k + 1) * 2 ^ (- e2)) by (rewrite Epow2 in Hm1; nia).
  assert (K2 : k * 2 ^ (- e2) <= shr_m c) by (rewrite Epow2 in Hm1; nia).
  destruct (shr_m c) as [|m|m]; [ | | lia].
  - cbn [float_trunc]. f_equal. nia.
  - replace (e2 <=? emax - prec) with true
      by (symmetry; apply Z.leb_le; unfold emax, prec; lia).
    cbn [float_trunc].
    replace (0 <=? e2) with false by (symmetry; apply Z.leb_gt; lia).
    f_equal. symmetry. apply Z.div_unique with (r := Zpos m - k * 2 ^ (- e2)); lia.
Qed.

Lemma new_location_round_bit : forall m nb r,
  shr_r (shr_record_of_loc m (new_location nb r)) = true -> nb <= 2 * r.
Proof.
  intros m nb r. unfold new_location, new_location_even, new_location_odd.
  destruct (Z.even nb); destruct (r =? 0);
    [cbn; discriminate | | cbn; discriminate | ].
  - destruct (2 * r ?= nb) eqn:E; cbn [shr_record_of_loc shr_r];
      try discriminate; intros _;
      [apply Z.compare_eq in E | apply Z.compare_gt_iff in E]; lia.
  - destruct (2 * r + 1 ?= nb) eqn:E; cbn [shr_record_of_loc shr_r];
      try discriminate; intros _; apply Z.compare_gt_iff in E; lia.
Qed.

Lemma SFdiv_floor : forall p q j,
  0 <= j <= 52 -> Zpos q < 2 ^ (53 - j) -> Zpos p / Zpos q + 1 <= 2 ^ j ->
  float_trunc (SFdiv prec emax (S754_finite false p 0) (S754_finite false q 0))
  = Ok (Zpos p / Zpos q).
Proof.
  intros p q j Hj Hq Hk.
  set (k := Zpos p / Zpos q) in *.
  assert (Hkq : k * Zpos q <= Zpos p < (k + 1) * Zpos q).
  { subst k. pose proof (Z.div_mod (Zpos p) (Zpos q)).
    pose proof (Z.mod_pos_bound (Zpos p) (Zpos q)). nia. }
  assert (Hk0 : 0 <= k) by (subst k; apply Z.div_pos; lia).
  unfold SFdiv, SFdiv_core_binary.
  set (e' := Z.min (fexp prec emax (Zdigits2 (Zpos p) + 0 - (Zdigits2 (Zpos q) + 0)))
                   (0 - 0)).
  assert (He' : e' <= j - 53).
  { assert (Hd : Zdigits2 (Zpos p) <= j + Zdigits2 (Zpos q)).
    { apply Zdigits2_le; [|cbn; lia]. split; [lia|].
      rewrite Z.pow_add_r by (cbn; lia).
      pose proof (digits2_pos_upper q). cbn [Zdigits2].
      assert (0 < 2 ^ j) by (apply Z.pow_pos_nonneg; lia). nia. }
    subst e'. unfold fexp, SpecFloat.emin, prec, emax. lia. }
  set (s := 0 - 0 - e').
  set (m' := match s with
             | Zpos _ => Z.shiftl (Zpos p) s
             | Z0 => Zpos p
             | Zneg _ => 0
             end).
  assert (Em' : m' = Zpos p * 2 ^ (- e')).
  { replace (- e') with s by (subst s; lia).
    subst m'. destruct s as [|s'|s'] eqn:Es.
    - rewrite Z.pow_0_r. lia.
    - rewrite Z.shiftl_mul_pow2 by lia. reflexivity.
    - lia. }
  pose proof (Z_div_mod m' (Zpos q) eq_refl) as Hdm.
  destruct (Z.div_eucl m' (Zpos q)) as [qq r] eqn:Ediv. destruct Hdm as [Hm' Hr].
  assert (Ps : 0 < 2 ^ (- e')) by (apply Z.pow_pos_nonneg; lia).
  cbn [xorb].
  apply (binary_round_aux_floor qq e' (new_location (Zpos q) r) (Zpos p) (Zpos q) k j);
    try assumption; try lia.
  - nia.
  - intros Hb. apply new_location_round_bit in Hb. rewrite <- Em'. nia.
Qed.

(** Non-negative [a] over positive [b < 2^(53-j)] with a quotient below
    [2^j]: truncating the float quotient gives the integer quotient. *)
Lemma int_truediv_trunc_floor : forall a b j,
  0 <= a -> 0 < b -> 0 <= j <= 52 -> b < 2 ^ (53 - j) -> a / b + 1 <= 2 ^ j ->
  exists f, int_truediv a b = Ok f /\ float_trunc f = Ok (a / b).
Proof.
  intros a b j Ha Hb Hj Hbj Hq.
  destruct b as [|q|q]; try lia. destruct a as [|p|p]; try lia.
  - exists (S754_zero false). split; reflexivity.
  - pose proof (SFdiv_floor p q j Hj Hbj Hq) as H.
    unfold int_truediv.
    destruct (SFdiv prec emax (S754_finite false p 0) (S754_finite false q 0))
      as [sz|si| |sf m e]; try discriminate H; eauto.
Qed.

(** ** Quotients and integers that fit a float *)

Lemma Zdigits2_nonneg : forall m, 0 <= Zdigits2 m.
Proof. intros [|p|p]; cbn; lia. Qed.

Lemma binary_round_aux_finite : forall sx mx ex lx B,
  0 <= mx -> 0 <= B <= 1023 -> ex <= 0 ->
  mx < 2 ^ (B - ex) ->
  finite_or_zero (binary_round_aux prec emax sx mx ex lx).
Proof.
  intros sx mx ex lx B Hmx HB Hex Hlt.
  unfold binary_round_aux, shr_fexp.
  set (a := shr_record_of_loc mx lx).
  assert (Ea : shr_m a = mx) by (subst a; destruct lx as [|[| |]]; reflexivity).
  assert (Hpow : forall u v, 0 <= u -> 0 <= v -> 2 ^ (u + v) = 2 ^ u * 2 ^ v)
    by (intros; apply Z.pow_add_r; lia).
  set (n1 := fexp prec emax (Zdigits2 mx + ex) - ex).
  assert (Hd1 : Zdigits2 mx <= B - ex) by (apply Zdigits2_le; lia).
  assert (Hn1 : ex + Z.max 0 n1 <= Z.max 0 (B - 53)).
  { subst n1. unfold fexp, SpecFloat.emin, prec, emax. lia. }
  destruct (shr_shifted a ex n1) as [Hs1 Ee1]; [lia|].
  destruct (shr a ex n1) as [b e1]. cbn [fst snd] in Hs1, Ee1.
  set (t1 := Z.max 0 n1) in *.
  destruct Hs1 as [Hb [[Hab _] _]]. rewrite Ea in Hab.
  assert (PT1 : 0 < 2 ^ t1) by (apply Z.pow_pos_nonneg; lia).
  assert (He1 : e1 <= B) by lia.
  assert (Epow : 2 ^ (B - ex) = 2 ^ (B - e1) * 2 ^ t1).
  { rewrite <- Hpow by lia. f_equal. lia. }
  assert (Hb1 : shr_m b < 2 ^ (B - e1)) by (rewrite Epow in Hlt; nia).
  set (m1 := round_nearest_even (shr_m b) (loc_of_shr_record b)).
  assert (Hm1 : 0 <= m1 < 2 ^ (B + 1 - e1)).
  { replace (B + 1 - e1) with (1 + (B - e1)) by lia. rewrite Hpow by lia.
    change (2 ^ 1) with 2.
    subst m1. destruct (round_nearest_even_cases b) as [-> | [-> _]]; lia. }
  set (a2 := shr_record_of_loc m1 loc_Exact).
  set (n2 := fexp prec emax (Zdigits2 m1 + e1) - e1).
  assert (Hd2 : Zdigits2 m1 <= B + 1 - e1) by (apply Zdigits2_le; lia).
  assert (Hn2 : e1 + Z.max 0 n2 <= 971).
  { subst n2. unfold fexp, SpecFloat.emin, prec, emax. lia. }
  destruct (shr_shifted a2 e1 n2) as [Hs2 Ee2]; [cbn; lia|].
  destruct (shr a2 e1 n2) as [c e2]. cbn [fst snd] in Hs2, Ee2.
  destruct Hs2 as [Hc _].
  destruct (shr_m c) as [|m|m]; cbn [finite_or_zero]; [exact I | | lia].
  replace (e2 <=? emax - prec) with true
    by (symmetry; apply Z.leb_le; unfold emax, prec; lia).
  exact I.
Qed.

Lemma SFdiv_finite : forall sp sq p q B,
  0 <= B <= 1023 -> Zpos p < 2 ^ B * Zpos q ->
  finite_or_zero (SFdiv prec emax (S754_finite sp p 0) (S754_finite sq q 0)).
Proof.
  intros sp sq p q B HB Hpq. unfold SFdiv, SFdiv_core_binary.
  set (e' := Z.min (fexp prec emax (Zdigits2 (Zpos p) + 0 - (Zdigits2 (Zpos q) + 0)))
                   (0 - 0)).
  assert (He' : e' <= 0) by (subst e'; lia).
  set (s := 0 - 0 - e').
  set (m' := match s with
             | Zpos _ => Z.shiftl (Zpos p) s
             | Z0 => Zpos p
             | Zneg _ => 0
             end).
  assert (Em' : m' = Zpos p * 2 ^ (- e')).
  { replace (- e') with s by (subst s; lia).
    subst m'. destruct s as [|s'|s'] eqn:Es.
    - rewrite Z.pow_0_r. lia.
    - rewrite Z.shiftl_mul_pow2 by lia. reflexivity.
    - lia. }
  pose proof (Z_div_mod m' (Zpos q) eq_refl) as Hdm.
  destruct (Z.div_eucl m' (Zpos q)) as [qq r]. destruct Hdm as [Hm' Hr].
  assert (Ps : 0 < 2 ^ (- e')) by (apply Z.pow_pos_nonneg; lia).
  assert (PB : 0 < 2 ^ B) by (apply Z.pow_pos_nonneg; lia).
  apply (binary_round_aux_finite _ qq e' _ B); try lia.
  - nia.
  - replace (B - e') with (B + - e') by lia. rewrite Z.pow_add_r by lia. nia.
Qed.

(** The true division of two integers returns whenever the divisor is
    not zero and the quotient is below 2^1023 in magnitude. *)
Lemma int_truediv_returns : forall a b,
  b <> 0 -> Z.abs a < 2 ^ 1023 * Z.abs b ->
  exists f, int_truediv a b = Ok f.
Proof.
  intros a b Hb Hab.
  destruct b as [|q|q]; [congruence| |];
    (destruct a as [|p|p]; [eexists; reflexivity| |]);
    unfold int_truediv;
    match goal with
    | |- context [SFdiv prec emax (S754_finite ?sp ?p 0) (S754_finite ?sq ?q 0)] =>
        pose proof (SFdiv_finite sp sq p q 1023 ltac:(lia) Hab) as H;
        destruct (SFdiv prec emax (S754_finite sp p 0) (S754_finite sq q 0));
        cbn [finite_or_zero] in H; try contradiction; eauto
    end.
Qed.

Lemma pos_iter_xO : forall d m, Zpos (Pos.iter xO m d) = Zpos m * 2 ^ Zpos d.
Proof.
  induction d as [|d IH] using Pos.peano_ind; intros m.
  - cbn. lia.
  - rewrite Pos.iter_succ, Pos2Z.inj_succ, Z.pow_succ_r by lia.
    rewrite Pos2Z.inj_xO, IH. lia.
Qed.

Lemma binary_round_finite : forall s m,
  Zpos m < 2 ^ 1023 -> finite_or_zero (binary_round prec emax s m 0).
Proof.
  intros s m Hm. unfold binary_round, shl_align.
  set (ex' := fexp prec emax (Zpos (digits2_pos m) + 0)).
  destruct (ex' - 0) as [|d|d] eqn:Ed.
  - apply (binary_round_aux_finite _ _ 0 _ 1023); lia.
  - apply (binary_round_aux_finite _ _ 0 _ 1023); lia.
  - assert (Hex : ex' = Zneg d) by lia.
    apply (binary_round_aux_finite _ _ ex' _ 1023); try lia.
    rewrite pos_iter_xO. rewrite Hex.
    replace (1023 - Zneg d) with (1023 + Zpos d) by lia.
    rewrite Z.pow_add_r by lia.
    assert (0 < 2 ^ Zpos d) by (apply Z.pow_pos_nonneg; lia). nia.
Qed.

(** [float(i)] returns for every integer below 2^1023 in magnitude. *)
Lemma float_of_int_returns : forall i,
  Z.abs i < 2 ^ 1023 -> exists f, float_of_int i = Ok f.
Proof.
  intros i Hi. unfold float_of_int, nearest_float, binary_normalize.
  destruct i as [|m|m].
  - eexists. reflexivity.
  - pose proof (binary_round_finite false m Hi) as H.
    destruct (binary_round prec emax false m 0); cbn in H; try contradiction; eauto.
  - pose proof (binary_round_finite true m Hi) as H.
    destruct (binary_round prec emax true m 0); cbn in H; try contradiction; eauto.
Qed.

Lemma format_2f_num_returns : forall v,
  fits_float v -> exists text, format_2f_num v = Ok text.
Proof.
  intros [i|f] Hv; cbn [fits_float format_2f_num] in *.
  - destruct (float_of_int_returns i Hv) as [f Ef]. rewrite Ef. cbn. eauto.
  - eauto.
Qed.

(** ** Counters *)

Lemma total_count_from : forall cs z,
  List.fold_left (fun acc kv => acc + snd kv) cs z = z + total_count cs.
Proof.
  unfold total_count. induction cs as [|kv cs IH]; intros z; cbn [List.fold_left].
  - lia.
  - rewrite IH, (IH (0 + snd kv)). lia.
Qed.

Lemma total_count_cons : forall kv cs,
  total_count (kv :: cs) = snd kv + total_count cs.
Proof.
  intros kv cs. unfold total_count at 1. cbn [List.fold_left].
  rewrite total_count_from. lia.
Qed.

Lemma total_count_bounds : forall (cs : list (Z * Z)),
  Forall (fun kv => 0 <= snd kv) cs ->
  0 <= total_count cs /\ forall kv, In kv cs -> snd kv <= total_count cs.
Proof.
  induction 1 as [|kv cs Hkv Hcs [IH0 IH]].
  - split; [reflexivity | intros kv []].
  - rewrite total_count_cons. split; [lia|].
    intros kv' [<-|Hin]; [lia|]. specialize (IH kv' Hin). lia.
Qed.

Lemma best_of_fold : forall (rest : list (Z * Z)) best,
  let top := List.fold_left
               (fun best kv' => if snd best <? snd kv' then kv' else best)
               rest best in
  (top = best \/ In top rest)
  /\ snd best <= snd top
  /\ forall kv, In kv rest -> snd kv <= snd top.
Proof.
  induction rest as [|kv rest IH]; intros best; cbn [List.fold_left].
  - split; [left; reflexivity|]. split; [lia | intros kv []].
  - destruct (IH (if snd best <? snd kv then kv else best)) as [Hin [Hle Hall]].
    destruct (Z.ltb_spec (snd best) (snd kv)) as [Hlt|Hge].
    + split; [destruct Hin as [->|Hin]; [right; left; reflexivity | right; right; exact Hin]|].
      split; [lia|]. intros kv' [<-|Hin']; [exact Hle | apply Hall; exact Hin'].
    + split; [destruct Hin as [->|Hin]; [left; reflexivity | right; right; exact Hin]|].
      split; [exact Hle|]. intros kv' [<-|Hin']; [lia | apply Hall; exact Hin'].
Qed.

(** [most_common(1)] of a non-empty counter is one of its entries, with
    the largest count. *)
Lemma most_common_1_largest : forall cs,
  cs <> [] ->
  exists kv, most_common_1 cs = [kv]
             /\ In kv cs
             /\ forall kv', In kv' cs -> snd kv' <= snd kv.
Proof.
  intros [|kv0 rest] Hne; [congruence|].
  unfold most_common_1.
  destruct (best_of_fold rest kv0) as [Hin [Hle Hall]].
  eexists. split; [reflexivity|]. split.
  - destruct Hin as [->|Hin]; [left; reflexivity | right; exact Hin].
  - intros kv' [<-|Hin']; [exact Hle | apply Hall; exact Hin'].
Qed.

(** ** node_to_str *)

Lemma nonnegative_counts_fit : forall (cs : list (Z * Z)),
  Forall (fun kv => 0 <= snd kv) cs ->
  0 < total_count cs ->
  Forall (fun kv => Z.abs (snd kv) < 2 ^ 1023 * Z.abs (total_count cs)) cs.
Proof.
  intros cs Hnn Hpos.
  destruct (total_count_bounds cs Hnn) as [_ Hbound].
  rewrite Forall_forall in *. intros kv Hin.
  specialize (Hnn kv Hin). specialize (Hbound kv Hin).
  assert (1 < 2 ^ 1023) by (apply Z.ltb_lt; vm_compute; reflexivity).
  rewrite !Z.abs_eq by lia. nia.
Qed.

(** C4 (as the code behaves): for an internal node whose feature index
    is within [feature_names] and whose counts are non-empty with a sum
    other than zero, the label is the four lines "samples: <total>",
    "gini: <gini, 2 decimals>", "ratio: <majority / total, 2 decimals>"
    and "<feature name> <= <threshold, 2 decimals>", where the total is
    the sum of the counts and the majority is the largest count.  The
    ratio and the threshold must convert to a float: no count reaches
    2^1023 times the total in magnitude (as with all counts
    non-negative), and a threshold that is an integer is below 2^1023
    in magnitude. *)
Theorem node_to_str_internal_four_lines :
  forall feature_names class_names node name,
  is_leaf node = false ->
  py_index feature_names (feature node) = Ok name ->
  counts node <> [] ->
  total_count (counts node) <> 0 ->
  Forall (fun kv => Z.abs (snd kv) < 2 ^ 1023 * Z.abs (total_count (counts node)))
         (counts node) ->
  fits_float (value node) ->
  exists category majority ratio threshold,
    most_common_1 (counts node) = [(category, majority)]
    /\ In (category, majority) (counts node)
    /\ (forall kv, In kv (counts node) -> snd kv <= majority)
    /\ int_truediv majority (total_count (counts node)) = Ok ratio
    /\ format_2f_num (value node) = Ok threshold
    /\ node_to_str feature_names class_names node
       = Ok (join_lines
               [ ("samples: " ++ str_of_int (total_count (counts node)))%string;
                 ("gini: " ++ format_2f (gini node))%string;
                 ("ratio: " ++ format_2f ratio)%string;
                 (name ++ " <= " ++ threshold)%string ]).
Proof.
  intros fn cn node name Hleaf Hname Hne Htotal Hfit Hvalue.
  destruct (most_common_1_largest (counts node) Hne)
    as [[category majority] [Hmc [Hin Hmax]]].
  assert (Hmaj : Z.abs majority < 2 ^ 1023 * Z.abs (total_count (counts node))).
  { rewrite Forall_forall in Hfit. apply (Hfit _ Hin). }
  destruct (int_truediv_returns majority (total_count (counts node)) Htotal Hmaj)
    as [ratio Hratio].
  destruct (format_2f_num_returns (value node) Hvalue) as [threshold Hthr].
  exists category, majority, ratio, threshold.
  repeat (split; [assumption|]).
  unfold node_to_str. rewrite Hleaf, Hname. cbn [rbind].
  rewrite Hmc. cbn [unpack_single rbind]. rewrite Hratio. cbn [rbind].
  rewrite Hthr. reflexivity.
Qed.

Lemma node_to_str_internal_four_lines_witness :
  let node := mkNode false 0 (PInt 3) (literal 1 2)
                     [(0, 5); (1, -1)] None None in
  node_to_str ["petal"] ["A"; "B"] node
  = Ok (join_lines ["samples: 4"; "gini: 0.50"; "ratio: 1.25"; "petal <= 3.00"]).
Proof.
  intros node.
  assert (Hne : counts node <> []) by discriminate.
  assert (Hpos : total_count (counts node) <> 0) by (vm_compute; discriminate).
  assert (Hfit : Forall (fun kv => Z.abs (snd kv)
                                   < 2 ^ 1023 * Z.abs (total_count (counts node)))
                        (counts node))
    by (repeat constructor; apply Z.ltb_lt; vm_compute; reflexivity).
  assert (Hv : fits_float (value node))
    by (apply Z.ltb_lt; vm_compute; reflexivity).
  destruct (node_to_str_internal_four_lines
              ["petal"] ["A"; "B"] node "petal" eq_refl eq_refl Hne Hpos Hfit Hv)
    as [category [majority [ratio [threshold [Hmc [_ [_ [Hratio [Hthr Hlabel]]]]]]]]].
  rewrite Hlabel.
  vm_compute in Hmc. inversion Hmc; subst category majority.
  vm_compute in Hratio. inversion Hratio; subst ratio.
  vm_compute in Hthr. inversion Hthr; subst threshold.
  vm_compute. reflexivity.
Defined.

(** With a float threshold and non-negative counts of positive sum the
    label is there: the everyday case of the theorem. *)
Example node_to_str_float_threshold :
  node_to_str ["petal"] ["A"; "B"]
    (mkNode false 0 (PFloat (literal 5 2)) (literal 1 2) [(0, 5); (1, 4)] None None)
  = Ok (join_lines ["samples: 9"; "gini: 0.50"; "ratio: 0.56"; "petal <= 2.50"]).
Proof. vm_compute. reflexivity. Qed.

(** A count 2^1100 times the total has no float ratio: the division
    raises OverflowError. *)
Example node_to_str_huge_ratio_raises :
  node_to_str ["petal"] ["A"; "B"]
    (mkNode false 0 (PFloat (literal 5 2)) (literal 1 2)
            [(0, 2 ^ 1100); (1, 1 - 2 ^ 1100)] None None)
  = Raise OverflowError.
Proof. vm_compute. reflexivity. Qed.

(** C4 as stated fails on an internal node whose non-empty counts sum to
    zero: the ratio divides by zero. *)
Lemma node_to_str_zero_total_raises :
  node_to_str ["petal"] ["A"; "B"]
    (mkNode false 0 (PFloat (literal 5 2)) (literal 1 2) [(0, 0)] None None)
  = Raise ZeroDivisionError.
Proof. vm_compute. reflexivity. Qed.

(** ** get_node_color *)

Lemma to_hexadecimal_channels : forall values, Forall channel values ->
  exists body, to_hexadecimal values = Ok (String "#" body)
               /\ decode_hex_pairs body = Some values.
Proof.
  intros values Hv.
  destruct (comprehension_hex_channels values Hv) as [parts [E [_ Hdec]]].
  exists (join_empty parts). unfold to_hexadecimal. rewrite E. cbn. auto.
Qed.

(** C5 (as the code behaves): a leaf whose class index is within the
    palette gets the three channels of its class colour, no alpha.  An
    internal node with non-negative counts of positive sum, whose
    majority class is within the palette, gets the channels of that
    class followed by an alpha in [0, 255]: the float quotient
    [255 * majority / total] truncated to an integer, which is the
    integer quotient whenever the total is below 2^45. *)
Theorem get_node_color_leaf_and_internal : forall colors node rgb,
  Forall channel rgb ->
  (is_leaf node = true ->
   forall i, value node = PInt i -> py_index colors i = Ok rgb ->
   exists body,
     get_node_color colors node = Ok (String "#" body)
     /\ decode_hex_pairs body = Some rgb)
  /\ (is_leaf node = false ->
      Forall (fun kv => 0 <= snd kv) (counts node) ->
      0 < total_count (counts node) ->
      forall cls count,
      most_common_1 (counts node) = [(cls, count)] ->
      py_index colors cls = Ok rgb ->
      exists q alpha body,
        int_truediv (255 * count) (total_count (counts node)) = Ok q
        /\ float_trunc q = Ok alpha
        /\ 0 <= alpha <= 255
        /\ (total_count (counts node) < 2 ^ 45 ->
            alpha = 255 * count / total_count (counts node))
        /\ get_node_color colors node = Ok (String "#" body)
        /\ decode_hex_pairs body = Some (rgb ++ [alpha])).
Proof.
  intros colors node rgb Hrgb. split.
  - intros Hleaf i Hvalue Hidx.
    destruct (to_hexadecimal_channels rgb Hrgb) as [body [Ehex Hdec]].
    exists body. unfold get_node_color. rewrite Hleaf, Hvalue.
    cbn [index_by_num]. rewrite Hidx. cbn [rbind]. auto.
  - intros Hleaf Hnonneg Htotal cls count Hmc Hidx.
    set (total := total_count (counts node)) in *.
    assert (Hne : counts node <> []).
    { intros E. rewrite E in Hmc. discriminate. }
    destruct (most_common_1_largest (counts node) Hne) as [kv [Hmc' [Hin _]]].
    rewrite Hmc in Hmc'. inversion Hmc'; subst kv; clear Hmc'.
    destruct (total_count_bounds (counts node) Hnonneg) as [_ Hbound].
    pose proof (Hbound _ Hin) as Hle. cbn [snd] in Hle. fold total in Hle.
    assert (Hcount : 0 <= count).
    { rewrite Forall_forall in Hnonneg. apply (Hnonneg _ Hin). }
    destruct (int_truediv_trunc_bounds (255 * count) total 255)
      as [q [alpha [Hq [Halpha Hrange]]]]; try lia.
    assert (Hrgba : Forall channel (rgb ++ [alpha])).
    { apply Forall_app. split; [exact Hrgb|]. repeat constructor; unfold channel; lia. }
    destruct (to_hexadecimal_channels (rgb ++ [alpha]) Hrgba) as [body [Ehex Hdec]].
    exists q, alpha, body.
    split; [exact Hq|]. split; [exact Halpha|]. split; [exact Hrange|]. split.
    + intros Hsmall.
      destruct (int_truediv_trunc_floor (255 * count) total 8)
        as [q' [Hq' Hfloor]]; try lia.
      { assert (255 * count / total <= 255)
          by (apply Z.div_le_upper_bound; lia).
        change (2 ^ 8) with 256. lia. }
      rewrite Hq in Hq'. inversion Hq'; subst q'.
      rewrite Halpha in Hfloor. inversion Hfloor. reflexivity.
    + unfold get_node_color. rewrite Hleaf, Hmc. cbn [unpack_single rbind].
      rewrite Hidx. cbn [rbind]. fold total. rewrite Hq. cbn [rbind].
      rewrite Halpha. cbn [rbind]. auto.
Qed.

Lemma get_node_color_leaf_and_internal_witness :
  let palette := [[229; 129; 57]; [57; 157; 229]] in
  let node := mkNode false 0 (PFloat (literal 5 2)) (literal 1 2)
                     [(0, 5); (1, 4)] None None in
  exists alpha body,
    alpha = 255 * 5 / 9
    /\ get_node_color palette node = Ok (String "#" body)
    /\ decode_hex_pairs body = Some [229; 129; 57; alpha].
Proof.
  intros palette node.
  assert (Hrgb : Forall channel [229; 129; 57])
    by (repeat constructor; unfold channel; lia).
  assert (Hnn : Forall (fun kv => 0 <= snd kv) (counts node))
    by (repeat constructor; cbn; lia).
  assert (Hpos : 0 < total_count (counts node)) by (vm_compute; reflexivity).
  destruct (get_node_color_leaf_and_internal palette node [229; 129; 57] Hrgb)
    as [_ Hinternal].
  destruct (Hinternal eq_refl Hnn Hpos 0 5 eq_refl eq_refl)
    as [q [alpha [body [_ [_ [_ [Hfloor [Hcolor Hdec]]]]]]]].
  exists alpha, body. split; [|split; assumption].
  apply Hfloor. vm_compute. reflexivity.
Defined.

(** C5 as stated fails twice: an internal node whose non-empty counts sum
    to zero gets no colour at all, and on an even split the alpha is 127,
    the truncation of 255 * (1 / 2) = 127.5. *)
Lemma get_node_color_alpha_is_truncated :
  let palette := [[229; 129; 57]; [57; 157; 229]] in
  get_node_color palette
    (mkNode false 0 (PFloat (literal 5 2)) (literal 1 2) [(0, 0)] None None)
  = Raise ZeroDivisionError
  /\ get_node_color palette
       (mkNode false 0 (PFloat (literal 5 2)) (literal 1 2)
               [(0, 1); (1, 1)] None None)
     = Ok "#e581397f"
  /\ decode_hex_pairs "e581397f" = Some [229; 129; 57; 127]
  /\ 2 * 127 <> 255 * 1.
Proof.
  intros palette. split; [vm_compute; reflexivity|].
  split; [vm_compute; reflexivity|]. split; [reflexivity | lia].
Qed.

(** ** node_id *)

Lemma join_empty_cons : forall x xs, join_empty (x :: xs) = (x ++ join_empty xs)%string.
Proof.
  intros x [|y ys]; unfold join_empty; cbn [String.concat].
  - induction x as [|c x IH]; cbn; [reflexivity | f_equal; exact IH].
  - reflexivity.
Qed.

Lemma all_digits_app : forall s1 s2,
  all_digits (s1 ++ s2) = all_digits s1 && all_digits s2.
Proof.
  induction s1 as [|c s1 IH]; intros s2; cbn; [reflexivity|].
  rewrite IH, andb_assoc. reflexivity.
Qed.

Lemma string_length_app : forall s1 s2,
  String.length (s1 ++ s2) = (String.length s1 + String.length s2)%nat.
Proof. induction s1 as [|c s1 IH]; intros s2; cbn; [reflexivity | rewrite IH; reflexivity]. Qed.

Lemma one_digit : forall c, In c digits -> String.length c = 1%nat /\ all_digits c = true.
Proof.
  intros c Hc. cbn in Hc.
  repeat (destruct Hc as [<- | Hc]; [split; reflexivity|]). contradiction.
Qed.

Lemma join_digits : forall cs,
  Forall (fun c => In c digits) cs ->
  String.length (join_empty cs) = List.length cs
  /\ all_digits (join_empty cs) = true.
Proof.
  induction 1 as [|c cs Hc Hcs [IHl IHd]]; [split; reflexivity|].
  rewrite join_empty_cons, string_length_app, all_digits_app.
  destruct (one_digit c Hc) as [Hl Hd]. rewrite Hl, Hd, IHl, IHd. split; reflexivity.
Qed.

Lemma random_choice_in_digits : forall w,
  exists c, random_choice digits w
            = (Ok c, mkWorld (fun k => rng w (S k)) (written w))
            /\ In c digits.
Proof.
  intros w. unfold random_choice, bind, draw, lift.
  destruct (nth_error digits (Nat.modulo (rng w 0%nat) (List.length digits)))
    as [c|] eqn:E.
  - exists c. split; [reflexivity | eapply nth_error_In; exact E].
  - apply nth_error_None in E.
    pose proof (Nat.mod_upper_bound (rng w 0%nat) (List.length digits)) as Hb.
    cbn [digits List.length] in *. lia.
Qed.

Lemma choices_in_digits : forall size w,
  exists cs g, choices size digits w = (Ok cs, mkWorld g (written w))
               /\ List.length cs = size
               /\ Forall (fun c => In c digits) cs.
Proof.
  induction size as [|size IH]; intros w.
  - exists [], (rng w). destruct w. repeat split. constructor.
  - destruct (random_choice_in_digits w) as [c [Ec Hc]].
    destruct (IH (mkWorld (fun k => rng w (S k)) (written w)))
      as [cs [g [Ecs [Hlen Hall]]]].
    exists (c :: cs), g. cbn [choices]. unfold bind at 1. rewrite Ec.
    unfold bind at 1. rewrite Ecs. cbn [written rng List.length].
    split; [reflexivity|]. split; [lia | constructor; assumption].
Qed.

(** X1: Whatever the random source yields, [node_id] returns twenty decimal
    digits and leaves the written file as it was. *)
Theorem node_id_twenty_digits : forall w,
  exists uid g,
    node_id w = (Ok uid, mkWorld g (written w))
    /\ String.length uid = 20%nat
    /\ all_digits uid = true.
Proof.
  intros w. destruct (choices_in_digits 20 w) as [cs [g [E [Hlen Hall]]]].
  destruct (join_digits cs Hall) as [Hl Hd].
  exists (join_empty cs), g. unfold node_id, bind. rewrite E.
  split; [reflexivity|]. split; [rewrite Hl; exact Hlen | exact Hd].
Qed.

(** ** to_hexadecimal on every integer *)

Lemma py_index_hex_wrap : forall d, -16 <= d < 0 ->
  py_index hex_codes d = py_index hex_codes (d + 16).
Proof.
  intros d Hd. unfold py_index.
  change (Z.of_nat (List.length hex_codes)) with 16.
  replace (d <? 0) with true by (symmetry; apply Z.ltb_lt; lia).
  replace (d + 16 <? 0) with false by (symmetry; apply Z.ltb_ge; lia).
  reflexivity.
Qed.

Lemma hex_pair_wrap : forall c, -256 <= c < 0 -> hex_pair c = hex_pair (c + 256).
Proof.
  intros c Hc. unfold hex_pair.
  replace ((c + 256) / 16) with (c / 16 + 16) by div_lia.
  replace ((c + 256) mod 16) with (c mod 16) by div_lia.
  rewrite (py_index_hex_wrap (c / 16)) by div_lia. reflexivity.
Qed.

Lemma hex_pair_mod : forall c, -256 <= c <= 255 -> hex_pair c = hex_pair (c mod 256).
Proof.
  intros c Hc. destruct (Z_lt_ge_dec c 0) as [Hneg|Hpos].
  - rewrite hex_pair_wrap by lia. f_equal. div_lia.
  - f_equal. div_lia.
Qed.

Lemma hex_pair_below : forall c, c < -256 -> hex_pair c = Raise IndexError.
Proof.
  intros c Hc. unfold hex_pair, py_index.
  change (Z.of_nat (List.length hex_codes)) with 16.
  assert (Hq : c / 16 < -16) by div_lia.
  replace (c / 16 <? 0) with true by (symmetry; apply Z.ltb_lt; lia).
  replace (0 <=? c / 16 + 16) with false by (symmetry; apply Z.leb_gt; lia).
  reflexivity.
Qed.

Lemma comprehension_hex_wrap : forall values,
  Forall (fun c => -256 <= c <= 255) values ->
  comprehension hex_pair values
  = comprehension hex_pair (List.map (fun c => c mod 256) values).
Proof.
  induction 1 as [|c cs Hc Hcs IH]; [reflexivity|].
  cbn [comprehension List.map]. rewrite <- hex_pair_mod by exact Hc.
  rewrite IH. reflexivity.
Qed.

(** X2: A negative channel does not fail: values from -256 to -1 index the
    digit table from its end, and the result is the colour string of the
    values taken modulo 256. *)
Theorem to_hexadecimal_wraps_negative : forall values,
  Forall (fun c => -256 <= c <= 255) values ->
  exists body,
    to_hexadecimal values = Ok (String "#" body)
    /\ decode_hex_pairs body = Some (List.map (fun c => c mod 256) values).
Proof.
  intros values Hv.
  assert (Hmod : Forall channel (List.map (fun c => c mod 256) values)).
  { apply Forall_map. apply Forall_impl with (2 := Hv).
    intros c _. unfold channel. div_lia. }
  destruct (comprehension_hex_channels _ Hmod) as [parts [E [_ Hdec]]].
  exists (join_empty parts). unfold to_hexadecimal.
  rewrite (comprehension_hex_wrap values Hv), E. cbn. auto.
Qed.

Lemma to_hexadecimal_wraps_negative_witness :
  exists body,
    to_hexadecimal [-1; -256; 3] = Ok (String "#" body)
    /\ decode_hex_pairs body = Some [255; 0; 3].
Proof.
  apply (to_hexadecimal_wraps_negative [-1; -256; 3]).
  repeat constructor; lia.
Defined.

(** X3: [to_hexadecimal] raises exactly when some value lies outside
    [-256, 255], and then the exception is IndexError. *)
Theorem to_hexadecimal_raises_iff : forall values e,
  to_hexadecimal values = Raise e
  <-> e = IndexError /\ Exists (fun c => c < -256 \/ 255 < c) values.
Proof.
  intros values e. split.
  - intros H.
    assert (He : e = IndexError).
    { unfold to_hexadecimal in H.
      destruct (comprehension hex_pair values) eqn:E; cbn in H; [discriminate|].
      inversion H; subst. eapply comprehension_hex_raises; eauto. }
    split; [exact He|].
    destruct (Exists_dec (fun c => c < -256 \/ 255 < c) values) as [Hex|Hnex];
      [ intros c; destruct (Z_lt_ge_dec c (-256)); [left; lia|];
        destruct (Z_lt_ge_dec 255 c); [left; lia | right; lia]
      | exact Hex | ].
    exfalso. apply Forall_Exists_neg in Hnex.
    assert (Hin : Forall (fun c => -256 <= c <= 255) values).
    { apply Forall_impl with (2 := Hnex). intros c Hc. lia. }
    destruct (to_hexadecimal_wraps_negative values Hin) as [body [E _]].
    congruence.
  - intros [-> Hex]. unfold to_hexadecimal.
    assert (H : comprehension hex_pair values = Raise IndexError).
    { induction Hex as [c rest Hc | c rest Hrest IH]; cbn [comprehension].
      - destruct Hc as [Hc|Hc];
          [rewrite (hex_pair_below c Hc) | rewrite (hex_pair_above c)];
          try reflexivity; lia.
      - destruct (hex_pair c) eqn:Ec; cbn [rbind].
        + rewrite IH. reflexivity.
        + f_equal. eapply hex_pair_raises; eauto. }
    rewrite H. reflexivity.
Qed.

(** ** Where to_hexadecimal is total, and its callers *)







(** ** create_graph without classes *)

(** X4: With an empty [class_names] the palette step divides by zero: the
    call raises ZeroDivisionError before any file is opened or written,
    whatever the tree and the output path. *)
Theorem create_graph_no_classes_raises :
  forall random openable tree feature_names output_file,
  create_graph random openable tree feature_names [] output_file
  = mkOutcome (Raise ZeroDivisionError) [] None.
Proof. intros. reflexivity. Qed.

(** ** The shape of what create writes *)

Section Shape.

Variable feature_names : list string.
Variable class_names : list string.
Variable colors : list (list Z).

Abbreviation Emits' := (Emits feature_names class_names colors).
Abbreviation EmitsEdge' := (EmitsEdge feature_names class_names colors).

Lemma emits_counts : forall node uid out,
  Emits' node uid out ->
  List.length (node_stmts out) = reached node
  /\ S (List.length (edge_stmts out)) = reached node.
Proof.
  fix IH 4.
  intros node uid out H.
  destruct H as [node uid label color Eleaf _ _
                | node uid label color ls rs Eleaf _ _ Hl Hr].
  - destruct node; cbn in *; subst; split; reflexivity.
  - assert (Hchild : forall c u lab cs, EmitsEdge' c u lab cs ->
              List.length (node_stmts cs)
              = match c with Some t => reached t | None => 0%nat end
              /\ List.length (edge_stmts cs)
                 = match c with Some t => reached t | None => 0%nat end).
    { intros c u lab cs Hc. destruct Hc as [u lab | t u lab c_uid out' Hem].
      - split; reflexivity.
      - destruct (IH _ _ _ Hem) as [Hn He].
        rewrite node_stmts_app, edge_stmts_app, !length_app. cbn. lia. }
    destruct (Hchild _ _ _ _ Hl) as [Hln Hle].
    destruct (Hchild _ _ _ _ Hr) as [Hrn Hre].
    change (NodeStmt uid label color :: ls ++ rs)
      with ([NodeStmt uid label color] ++ ls ++ rs).
    rewrite !node_stmts_app, !edge_stmts_app, !length_app.
    rewrite Hln, Hle, Hrn, Hre.
    destruct node; cbn in *; subst; cbn; lia.
Qed.

Lemma emits_head : forall node uid out,
  Emits' node uid out ->
  exists label color rest, out = NodeStmt uid label color :: rest.
Proof. intros node uid out H. destruct H; eauto. Qed.

Lemma node_ids_app : forall cs1 cs2, node_ids (cs1 ++ cs2) = node_ids cs1 ++ node_ids cs2.
Proof. intros. unfold node_ids. rewrite node_stmts_app, map_app. reflexivity. Qed.

Lemma emits_edges_closed : forall node uid out,
  Emits' node uid out ->
  forall src dst label,
    In (src, dst, label) (edge_stmts out) ->
    In src (node_ids out) /\ In dst (node_ids out).
Proof.
  fix IH 4.
  intros node uid out H.
  destruct H as [node uid label color Eleaf _ _
                | node uid label color ls rs Eleaf _ _ Hl Hr].
  - intros src dst lab [].
  - assert (Hchild : forall c lab cs, EmitsEdge' c uid lab cs ->
              forall src dst label',
                In (src, dst, label') (edge_stmts cs) ->
                (src = uid \/ In src (node_ids cs)) /\ In dst (node_ids cs)).
    { intros c lab cs Hc. destruct Hc as [u lab | t u lab c_uid out' Hem].
      - intros src dst label' [].
      - intros src dst label' Hin.
        rewrite edge_stmts_app in Hin. rewrite node_ids_app.
        apply in_app_or in Hin. destruct Hin as [Hin|Hin].
        + destruct (IH _ _ _ Hem src dst label' Hin) as [Hs Hd].
          split; [right|]; apply in_or_app; left; assumption.
        + destruct Hin as [Heq|[]]. inversion Heq; subst.
          split; [left; reflexivity|].
          destruct (emits_head _ _ _ Hem) as [l0 [c0 [rest ->]]].
          apply in_or_app. left. left. reflexivity. }
    intros src dst lab Hin.
    change (edge_stmts (NodeStmt uid label color :: ls ++ rs))
      with (edge_stmts (ls ++ rs)) in Hin.
    change (node_ids (NodeStmt uid label color :: ls ++ rs))
      with (uid :: node_ids (ls ++ rs)).
    rewrite edge_stmts_app in Hin. rewrite node_ids_app.
    apply in_app_or in Hin. destruct Hin as [Hin|Hin].
    + destruct (Hchild _ _ _ Hl src dst lab Hin) as [[->|Hs] Hd].
      * split; [left; reflexivity | right; apply in_or_app; left; exact Hd].
      * split; right; apply in_or_app; left; assumption.
    + destruct (Hchild _ _ _ Hr src dst lab Hin) as [[->|Hs] Hd].
      * split; [left; reflexivity | right; apply in_or_app; right; exact Hd].
      * split; right; apply in_or_app; right; assumption.
Qed.

Lemma emits_statements : forall node uid out,
  Emits' node uid out -> List.forallb is_statement out = true.
Proof.
  fix IH 4.
  intros node uid out H.
  destruct H as [node uid label color Eleaf _ _
                | node uid label color ls rs Eleaf _ _ Hl Hr].
  - reflexivity.
  - assert (Hchild : forall c u lab cs, EmitsEdge' c u lab cs ->
              List.forallb is_statement cs = true).
    { intros c u lab cs Hc. destruct Hc as [u lab | t u lab c_uid out' Hem].
      - reflexivity.
      - rewrite forallb_app, (IH _ _ _ Hem). reflexivity. }
    cbn [List.forallb is_statement]. rewrite forallb_app.
    rewrite (Hchild _ _ _ _ Hl), (Hchild _ _ _ _ Hr). reflexivity.
Qed.

Lemma emits_renderable : forall node uid out,
  Emits' node uid out -> renderable feature_names class_names colors node = true.
Proof.
  fix IH 4.
  intros node uid out H.
  destruct H as [node uid label color Eleaf Hlabel Hcolor
                | node uid label color ls rs Eleaf Hlabel Hcolor Hl Hr].
  - destruct node. cbn [renderable]. rewrite Hlabel, Hcolor.
    cbn in Eleaf. rewrite Eleaf. reflexivity.
  - assert (Hchild : forall c u lab cs, EmitsEdge' c u lab cs ->
              match c with
              | Some t => renderable feature_names class_names colors t
              | None => true
              end = true).
    { intros c u lab cs Hc. destruct Hc as [u lab | t u lab c_uid out' Hem].
      - reflexivity.
      - exact (IH _ _ _ Hem). }
    pose proof (Hchild _ _ _ _ Hl) as Hrl. pose proof (Hchild _ _ _ _ Hr) as Hrr.
    destruct node as [leaf f v g cs l r]. cbn [is_leaf left right] in *. subst leaf.
    cbn [renderable]. rewrite Hlabel, Hcolor. cbn [is_leaf left right].
    destruct l as [l|]; destruct r as [r|];
      rewrite ?Hrl, ?Hrr; reflexivity.
Qed.

End Shape.

(** X5: In what a returning [create] wrote there is one node statement per
    reached node and one edge statement fewer. *)
Theorem create_counts_nodes_and_edges :
  forall feature_names class_names colors node w uid w',
  create feature_names class_names colors node w = (Ok uid, w') ->
  exists out,
    written w' = written w ++ out
    /\ List.length (node_stmts out) = reached node
    /\ S (List.length (edge_stmts out)) = reached node.
Proof.
  intros fn cn colors node w uid w' H.
  destruct (create_emits fn cn colors node w uid w' H) as [out [Eout Hem]].
  exists out. split; [exact Eout|]. eapply emits_counts; eauto.
Qed.

(** X6: What a returning [create] wrote starts with the statement of the
    node whose identifier it returns, holds node and edge statements
    only, and every edge joins two identifiers that have a node statement
    in the same output. *)
Theorem create_edges_join_declared_nodes :
  forall feature_names class_names colors node w uid w',
  create feature_names class_names colors node w = (Ok uid, w') ->
  exists label color rest,
    written w' = written w ++ NodeStmt uid label color :: rest
    /\ List.forallb is_statement (NodeStmt uid label color :: rest) = true
    /\ forall src dst lab,
         In (src, dst, lab) (edge_stmts (NodeStmt uid label color :: rest)) ->
         In src (node_ids (NodeStmt uid label color :: rest))
         /\ In dst (node_ids (NodeStmt uid label color :: rest)).
Proof.
  intros fn cn colors node w uid w' H.
  destruct (create_emits fn cn colors node w uid w' H) as [out [Eout Hem]].
  destruct (emits_head _ _ _ _ _ _ Hem) as [label [color [rest E]]].
  exists label, color, rest. rewrite <- E.
  split; [exact Eout|]. split.
  - eapply emits_statements; eauto.
  - eapply emits_edges_closed; eauto.
Qed.

Lemma sample_run :
  let leaf := mkNode true 0 (PInt 1) fzero [(1, 4)] None None in
  let root := mkNode false 0 (PFloat (literal 5 2)) (literal 1 2)
                     [(0, 5); (1, 4)] None (Some leaf) in
  let run := create ["petal"] ["A"; "B"] [[229; 129; 57]; [57; 157; 229]] root
                    (mkWorld (fun k => k) []) in
  run = (Ok "01234567890123456789", snd run).
Proof. vm_compute. reflexivity. Qed.

Lemma create_counts_nodes_and_edges_witness :
  let leaf := mkNode true 0 (PInt 1) fzero [(1, 4)] None None in
  let root := mkNode false 0 (PFloat (literal 5 2)) (literal 1 2)
                     [(0, 5); (1, 4)] None (Some leaf) in
  let run := create ["petal"] ["A"; "B"] [[229; 129; 57]; [57; 157; 229]] root
                    (mkWorld (fun k => k) []) in
  exists out,
    written (snd run) = [] ++ out
    /\ List.length (node_stmts out) = 2%nat
    /\ S (List.length (edge_stmts out)) = 2%nat.
Proof.
  intros leaf root run.
  exact (create_counts_nodes_and_edges _ _ _ root _ _ _ sample_run).
Defined.

Lemma create_edges_join_declared_nodes_witness :
  let leaf := mkNode true 0 (PInt 1) fzero [(1, 4)] None None in
  let root := mkNode false 0 (PFloat (literal 5 2)) (literal 1 2)
                     [(0, 5); (1, 4)] None (Some leaf) in
  let run := create ["petal"] ["A"; "B"] [[229; 129; 57]; [57; 157; 229]] root
                    (mkWorld (fun k => k) []) in
  exists label color rest,
    written (snd run) = [] ++ NodeStmt "01234567890123456789" label color :: rest
    /\ List.forallb is_statement
         (NodeStmt "01234567890123456789" label color :: rest) = true
    /\ forall src dst lab,
         In (src, dst, lab)
            (edge_stmts (NodeStmt "01234567890123456789" label color :: rest)) ->
         In src (node_ids (NodeStmt "01234567890123456789" label color :: rest))
         /\ In dst (node_ids (NodeStmt "01234567890123456789" label color :: rest)).
Proof.
  intros leaf root run.
  exact (create_edges_join_declared_nodes _ _ _ root _ _ _ sample_run).
Defined.

(** ** create_graph on renderable trees *)

Lemma render_app : forall cs1 cs2, render (cs1 ++ cs2) = (render cs1 ++ render cs2)%string.
Proof.
  induction cs1 as [|c cs1 IH]; intros cs2; [reflexivity|].
  unfold render in *. cbn [List.app List.map].
  rewrite !join_empty_cons, IH.
  induction (render_chunk c) as [|a s IHs]; cbn; [reflexivity | f_equal; exact IHs].
Qed.

(** [create] returns exactly on the trees in which every reached node
    has a label and a colour. *)
Lemma create_returns_iff_renderable :
  forall feature_names class_names colors node w,
  (exists uid w', create feature_names class_names colors node w = (Ok uid, w'))
  <-> renderable feature_names class_names colors node = true.
Proof.
  intros fn cn colors node w. split.
  - intros [uid [w' H]].
    destruct (create_emits fn cn colors node w uid w' H) as [out [_ Hem]].
    eapply emits_renderable; eauto.
  - intros H. apply create_renderable. exact H.
Qed.

(** X7: Without [output_file], [create_graph] returns a text exactly when
    the palette exists and every reached node has a label and a colour;
    the text is then the two header lines, the statements of the tree
    and the closing brace. *)
Theorem create_graph_returns_iff_renderable :
  forall random openable tree feature_names class_names,
  (exists text,
     returned (create_graph random openable tree feature_names class_names None)
     = Ok text)
  <-> (exists palette,
         _color_brew (Z.of_nat (List.length class_names)) = Ok palette
         /\ renderable feature_names class_names palette tree = true).
Proof.
  intros random openable tree fn cn. split.
  - intros [text H].
    destruct (_color_brew (Z.of_nat (List.length cn))) as [palette|e] eqn:Hp.
    + exists palette. split; [reflexivity|].
      rewrite (create_graph_unfold random openable tree fn cn None palette StringIO
                 Hp eq_refl) in H.
      apply (create_returns_iff_renderable fn cn palette tree (mkWorld random header)).
      destruct (create fn cn palette tree (mkWorld random header)) as [[uid|e] w];
        [eauto | discriminate].
    + unfold create_graph in H. rewrite Hp in H. discriminate.
  - intros [palette [Hp Hr]].
    rewrite (create_graph_unfold random openable tree fn cn None palette StringIO
                 Hp eq_refl).
    destruct (create_renderable fn cn palette tree Hr (mkWorld random header))
      as [uid [w E]].
    rewrite E. cbn [returned]. eauto.
Qed.

(** X8: The text [create_graph] returns is the two header lines, then the
    statements of the tree as [Emits] describes them, then the closing
    brace. *)
Theorem create_graph_text_shape :
  forall random openable tree feature_names class_names text,
  returned (create_graph random openable tree feature_names class_names None)
  = Ok text ->
  exists palette uid out,
    _color_brew (Z.of_nat (List.length class_names)) = Ok palette
    /\ Emits feature_names class_names palette tree uid out
    /\ text = (render header ++ render out ++ "}")%string.
Proof.
  intros random openable tree fn cn text H.
  destruct (_color_brew (Z.of_nat (List.length cn))) as [palette|e] eqn:Hp.
  - rewrite (create_graph_unfold random openable tree fn cn None palette StringIO
                 Hp eq_refl) in H.
    destruct (create fn cn palette tree (mkWorld random header)) as [[uid|e] w] eqn:E;
      [|discriminate].
    destruct (create_emits fn cn palette tree _ _ _ E) as [out [Eout Hem]].
    exists palette, uid, out. split; [reflexivity|]. split; [exact Hem|].
    cbn [returned] in H. inversion H. cbn [written] in Eout. rewrite Eout.
    rewrite <- app_assoc, !render_app. reflexivity.
  - unfold create_graph in H. rewrite Hp in H. discriminate.
Qed.

Lemma create_graph_text_shape_witness :
  let tree := mkNode true 0 (PInt 0) fzero [(0, 3)] None None in
  exists palette uid out,
    _color_brew (Z.of_nat (List.length ["A"])) = Ok palette
    /\ Emits [] ["A"] palette tree uid out
    /\ render (header ++ [NodeStmt "01234567890123456789" "A" "#e58139"; Text "}"])
       = (render header ++ render out ++ "}")%string.
Proof.
  intros tree.
  apply (create_graph_text_shape (fun k => k) (fun _ => true) tree [] ["A"]).
  vm_compute. reflexivity.
Defined.

(** ** create_graph when the traversal fails *)

Lemma child_call_writes : forall fn cn colors c uid label w,
  on_child (fun t => forall w, exists out,
              written (snd (create fn cn colors t w)) = written w ++ out
              /\ List.forallb is_statement out = true) c ->
  exists out,
    written (snd (child_call fn cn colors c uid label w)) = written w ++ out
    /\ List.forallb is_statement out = true.
Proof.
  intros fn cn colors [t|] uid label w IH; cbn [child_call on_child] in *.
  - destruct (IH w) as [out [Eout Hst]]. unfold bind.
    destruct (create fn cn colors t w) as [[c_uid|e] w1]; cbn [snd] in *.
    + exists (out ++ [EdgeStmt uid c_uid label]). unfold write. cbn [snd written].
      rewrite Eout, app_assoc, forallb_app, Hst. split; reflexivity.
    + exists out. split; assumption.
  - exists []. cbn. rewrite app_nil_r. split; reflexivity.
Qed.

(** Whether it returns or raises, [create] only appends node and edge
    statements to the file. *)
Lemma create_writes_statements : forall fn cn colors node w,
  exists out,
    written (snd (create fn cn colors node w)) = written w ++ out
    /\ List.forallb is_statement out = true.
Proof.
  intros fn cn colors.
  induction node as [node IHl IHr] using TreeNode_ind. intros w.
  rewrite create_unfold.
  destruct (node_id_ok w) as [uid [g Eid]].
  unfold bind at 1. rewrite Eid.
  unfold bind at 1, lift at 1.
  destruct (node_to_str fn cn node) as [label|e];
    [|exists []; cbn; rewrite app_nil_r; split; reflexivity].
  unfold bind at 1, lift at 1.
  destruct (get_node_color colors node) as [color|e];
    [|exists []; cbn; rewrite app_nil_r; split; reflexivity].
  unfold bind at 1, write at 1. cbn [rng written].
  set (w0 := mkWorld g (written w ++ [NodeStmt uid label color])).
  destruct (is_leaf node); cbn [negb].
  - exists [NodeStmt uid label color]. cbn. split; reflexivity.
  - fold (child_call fn cn colors (left node) uid "yes").
    fold (child_call fn cn colors (right node) uid "no").
    destruct (child_call_writes fn cn colors (left node) uid "yes" w0 IHl)
      as [ls [Els Hls]].
    unfold bind at 1. unfold bind at 1.
    destruct (child_call fn cn colors (left node) uid "yes" w0) as [[[]|e] w1];
      cbn [snd] in Els.
    + destruct (child_call_writes fn cn colors (right node) uid "no" w1 IHr)
        as [rs [Ers Hrs]].
      destruct (child_call fn cn colors (right node) uid "no" w1) as [[[]|e] w2];
        cbn [snd] in Ers;
        (exists (NodeStmt uid label color :: ls ++ rs); cbn [snd ret];
         split; [ rewrite Ers, Els; subst w0; cbn [written];
                  rewrite <- !app_assoc; reflexivity
                | cbn [List.forallb is_statement]; rewrite forallb_app, Hls, Hrs;
                  reflexivity ]).
    + exists (NodeStmt uid label color :: ls). cbn [snd]. split.
      * rewrite Els. subst w0. cbn [written]. rewrite <- app_assoc. reflexivity.
      * cbn [List.forallb is_statement]. exact Hls.
Qed.

(** X9: When some reached node has no label or no colour, a call with an
    [output_file] that can be opened raises the exception the traversal
    raised at that node, the same one the call without [output_file]
    raises, and leaves at the path the header followed by the node and
    edge statements written before the failure: the closing brace is
    never written. *)
Theorem create_graph_failure_leaves_open_file :
  forall random openable tree feature_names class_names path palette,
  _color_brew (Z.of_nat (List.length class_names)) = Ok palette ->
  renderable feature_names class_names palette tree = false ->
  openable path = true ->
  exists e w out,
    create feature_names class_names palette tree (mkWorld random header)
    = (Raise e, w)
    /\ written w = header ++ out
    /\ List.forallb is_statement out = true
    /\ create_graph random openable tree feature_names class_names (Some path)
       = mkOutcome (Raise e) (header ++ out)
                   (Some (path, render (header ++ out)))
    /\ returned (create_graph random openable tree feature_names class_names None)
       = Raise e.
Proof.
  intros random openable tree fn cn path palette Hp Hr Hopen.
  assert (Ho : open_fp openable (Some path) = Ok (TextFile path))
    by (unfold open_fp; rewrite Hopen; reflexivity).
  rewrite (create_graph_unfold random openable tree fn cn (Some path) palette
             (TextFile path) Hp Ho).
  rewrite (create_graph_unfold random openable tree fn cn None palette
             StringIO Hp eq_refl).
  destruct (create_writes_statements fn cn palette tree (mkWorld random header))
    as [out [Eout Hst]].
  destruct (create fn cn palette tree (mkWorld random header)) as [[uid|e] w] eqn:E.
  - assert (renderable fn cn palette tree = true).
    { apply (create_returns_iff_renderable fn cn palette tree (mkWorld random header)).
      eauto. }
    congruence.
  - cbn [snd written] in Eout. exists e, w, out. rewrite Eout.
    split; [reflexivity|]. split; [reflexivity|]. split; [exact Hst|].
    split; reflexivity.
Qed.

Lemma create_graph_failure_leaves_open_file_witness :
  let leaf := mkNode true 0 (PInt 7) fzero [(1, 4)] None None in
  let root := mkNode false 0 (PFloat (literal 5 2)) (literal 1 2)
                     [(0, 5); (1, 4)] None (Some leaf) in
  let openable := fun path => String.eqb path "tree.dot" in
  exists e w out,
    create ["petal"] ["A"; "B"] [[229; 129; 57]; [57; 157; 229]] root
           (mkWorld (fun k => k) header)
    = (Raise e, w)
    /\ written w = header ++ out
    /\ List.forallb is_statement out = true
    /\ create_graph (fun k => k) openable root ["petal"] ["A"; "B"]
                    (Some "tree.dot")
       = mkOutcome (Raise e) (header ++ out)
                   (Some ("tree.dot", render (header ++ out)))
    /\ returned (create_graph (fun k => k) openable root ["petal"] ["A"; "B"] None)
       = Raise e.
Proof.
  intros leaf root openable.
  apply (create_graph_failure_leaves_open_file
           (fun k => k) openable root ["petal"] ["A"; "B"] "tree.dot"
           [[229; 129; 57]; [57; 157; 229]]).
  - vm_compute. reflexivity.
  - vm_compute. reflexivity.
  - vm_compute. reflexivity.
Defined.

(** The traversal of that tree fails with IndexError at the leaf, whose
    class index 7 is outside the two class names, after the root's
    statement was written. *)
Example create_graph_failure_is_index_error :
  let leaf := mkNode true 0 (PInt 7) fzero [(1, 4)] None None in
  let root := mkNode false 0 (PFloat (literal 5 2)) (literal 1 2)
                     [(0, 5); (1, 4)] None (Some leaf) in
  create_graph (fun k => k) (fun _ => true) root ["petal"] ["A"; "B"]
               (Some "tree.dot")
  = mkOutcome (Raise IndexError)
      (header ++ [NodeStmt "01234567890123456789"
                           (join_lines ["samples: 9"; "gini: 0.50";
                                        "ratio: 0.56"; "petal <= 2.50"])
                           "#e581398d"])
      (Some ("tree.dot",
             render (header ++ [NodeStmt "01234567890123456789"
                                  (join_lines ["samples: 9"; "gini: 0.50";
                                               "ratio: 0.56"; "petal <= 2.50"])
                                  "#e581398d"]))).
Proof. vm_compute. reflexivity. Qed.

(** ** Plotter.scatter: pairing and splitting *)

Lemma every_other_interleave : forall (A : Type) (xs ys : list A),
  List.length xs = List.length ys ->
  every_other (interleave xs ys) = xs
  /\ every_other (List.skipn 1 (interleave xs ys)) = ys.
Proof.
  induction xs as [|x xs IH]; intros [|y ys] Hl; try discriminate.
  - split; reflexivity.
  - cbn [List.length] in Hl. destruct (IH ys) as [E1 E2]; [lia|].
    cbn [interleave every_other List.skipn].
    split; [f_equal; exact E1|].
    destruct xs as [|x' xs']; destruct ys as [|y' ys']; try discriminate.
    + reflexivity.
    + cbn [interleave List.skipn] in E2. cbn [interleave every_other].
      f_equal. exact E2.
Qed.

Lemma scatter_points_kept : forall (A : Type) (points : list A),
  scatter_points points
  = let kept := if Nat.odd (List.length points)
                then List.removelast points else points in
    (every_other kept, every_other (List.skipn 1 kept)).
Proof.
  intros A points. unfold scatter_points. cbv zeta.
  rewrite kept_count, kept_points. reflexivity.
Qed.

(** X10: Splitting undoes pairing: the flat sequence x0, y0, x1, y1, ... of two
    sequences of equal length is split back into them, also when one
    unpaired value follows. *)
Theorem scatter_points_of_interleave : forall (A : Type) (xs ys : list A),
  List.length xs = List.length ys ->
  scatter_points (interleave xs ys) = (xs, ys)
  /\ forall z, scatter_points (interleave xs ys ++ [z]) = (xs, ys).
Proof.
  intros A xs ys Hl.
  destruct (every_other_interleave A xs ys Hl) as [E1 E2].
  pose proof (interleave_length A xs ys Hl) as Hlen.
  split.
  - rewrite scatter_points_kept. cbv zeta.
    replace (Nat.odd (List.length (interleave xs ys))) with false.
    + rewrite E1, E2. reflexivity.
    + rewrite Hlen, Nat.odd_mul. reflexivity.
  - intros z. rewrite scatter_points_kept. cbv zeta.
    replace (Nat.odd (List.length (interleave xs ys ++ [z]))) with true.
    + rewrite removelast_last, E1, E2. reflexivity.
    + rewrite length_app, Hlen. cbn [List.length].
      replace (2 * List.length xs + 1)%nat with (S (2 * List.length xs)) by lia.
      rewrite Nat.odd_succ, Nat.even_mul. reflexivity.
Qed.

Lemma scatter_points_of_interleave_witness :
  scatter_points (interleave [1; 3] [2; 4]) = ([1; 3], [2; 4])
  /\ forall z, scatter_points (interleave [1; 3] [2; 4] ++ [z]) = ([1; 3], [2; 4]).
Proof. apply (scatter_points_of_interleave Z [1; 3] [2; 4]). reflexivity. Defined.

(** ** The palette *)

(** X11: Every integer hue the loop can meet gives three channels between 57
    and 229, with one channel at each bound. *)
Theorem hue_rgb_between_57_and_229 : forall h, 25 <= h <= 385 ->
  exists rgb, hue_rgb h = Ok rgb /\ hue_rgb_ok rgb = true.
Proof.
  assert (H : List.forallb
                (fun h => match hue_rgb h with
                          | Ok rgb => hue_rgb_ok rgb
                          | Raise _ => false
                          end)
                (List.map Z.of_nat (List.seq 25 361)) = true)
    by (vm_compute; reflexivity).
  intros h Hh. rewrite forallb_forall in H.
  assert (Hin : In h (List.map Z.of_nat (List.seq 25 361))).
  { apply in_map_iff. exists (Z.to_nat h). split; [lia|]. apply in_seq. lia. }
  specialize (H h Hin). destruct (hue_rgb h) as [rgb|e]; [eauto | discriminate].
Qed.

Lemma hue_rgb_between_57_and_229_witness :
  exists rgb, hue_rgb 145 = Ok rgb /\ hue_rgb_ok rgb = true.
Proof. apply (hue_rgb_between_57_and_229 145). lia. Defined.

(** X12: For 1 to 160 classes the palette has one colour per class, each of
    three channels in [0, 255]. *)
Theorem color_brew_one_colour_per_class : forall n, 1 <= n <= 160 ->
  exists palette,
    _color_brew n = Ok palette
    /\ Z.of_nat (List.length palette) = n
    /\ Forall (fun rgb => List.length rgb = 3%nat /\ Forall channel rgb) palette.
Proof.
  intros n Hn. pose proof (color_brew_up_to_160 n Hn) as H.
  unfold palette_ok in H. destruct (_color_brew n) as [palette|e]; [|discriminate].
  apply andb_prop in H. destruct H as [Hlen Hall].
  exists palette. split; [reflexivity|]. split; [apply Z.eqb_eq; exact Hlen|].
  rewrite forallb_forall in Hall. apply Forall_forall. intros rgb Hin.
  specialize (Hall rgb Hin). unfold channels_ok in Hall.
  apply andb_prop in Hall. destruct Hall as [H3 Hch].
  split; [apply Nat.eqb_eq; exact H3|].
  rewrite forallb_forall in Hch. apply Forall_forall. intros c Hc.
  specialize (Hch c Hc). unfold channel. lia.
Qed.

Lemma color_brew_one_colour_per_class_witness :
  exists palette,
    _color_brew 3 = Ok palette
    /\ Z.of_nat (List.length palette) = 3
    /\ Forall (fun rgb => List.length rgb = 3%nat /\ Forall channel rgb) palette.
Proof. apply (color_brew_one_colour_per_class 3). lia. Defined.

(** ** Nodes that cannot be rendered *)

Lemma create_raises_at_node : forall fn cn colors node w e,
  node_to_str fn cn node = Raise e ->
  exists g, create fn cn colors node w = (Raise e, mkWorld g (written w)).
Proof.
  intros fn cn colors node w e H. rewrite create_unfold.
  destruct (node_id_ok w) as [uid [g Eid]]. exists g.
  unfold bind at 1. rewrite Eid. unfold bind at 1, lift at 1. rewrite H. reflexivity.
Qed.

(** X13: An internal node with an empty counter cannot be labelled: [create]
    raises ValueError there, and writes nothing for the node. *)
Theorem create_empty_counts_raises : forall fn cn colors node w name,
  is_leaf node = false ->
  counts node = [] ->
  py_index fn (feature node) = Ok name ->
  exists g, create fn cn colors node w = (Raise ValueError, mkWorld g (written w)).
Proof.
  intros fn cn colors node w name Hleaf Hcounts Hname.
  apply create_raises_at_node.
  unfold node_to_str. rewrite Hleaf, Hname, Hcounts. reflexivity.
Qed.

Lemma create_empty_counts_raises_witness :
  let node := mkNode false 0 (PFloat (literal 5 2)) (literal 1 2) [] None None in
  exists g, create ["petal"] ["A"] [[229; 129; 57]] node (mkWorld (fun k => k) header)
            = (Raise ValueError, mkWorld g header).
Proof.
  intros node.
  exact (create_empty_counts_raises ["petal"] ["A"] [[229; 129; 57]] node
           (mkWorld (fun k => k) header) "petal" eq_refl eq_refl eq_refl).
Defined.

(** X14: A leaf whose class index is outside [-len, len) of [class_names]
    cannot be labelled: [create] raises IndexError there and writes
    nothing for the node; a float in place of the index raises
    TypeError. *)
Theorem create_leaf_bad_class_raises : forall fn cn colors node w,
  is_leaf node = true ->
  (forall i, value node = PInt i ->
     i < - Z.of_nat (List.length cn) \/ Z.of_nat (List.length cn) <= i ->
     exists g, create fn cn colors node w = (Raise IndexError, mkWorld g (written w)))
  /\ (forall f, value node = PFloat f ->
        exists g, create fn cn colors node w = (Raise TypeError, mkWorld g (written w))).
Proof.
  intros fn cn colors node w Hleaf. split.
  - intros i Hvalue Hout. apply create_raises_at_node.
    unfold node_to_str. rewrite Hleaf, Hvalue. cbn [index_by_num]. unfold py_index.
    destruct (i <? 0) eqn:Eneg.
    + apply Z.ltb_lt in Eneg.
      replace (0 <=? i + Z.of_nat (List.length cn)) with false
        by (symmetry; apply Z.leb_gt; lia).
      reflexivity.
    + apply Z.ltb_ge in Eneg.
      replace (i <? Z.of_nat (List.length cn)) with false
        by (symmetry; apply Z.ltb_ge; lia).
      rewrite andb_false_r. reflexivity.
  - intros f Hvalue. apply create_raises_at_node.
    unfold node_to_str. rewrite Hleaf, Hvalue. reflexivity.
Qed.

Lemma create_leaf_bad_class_raises_witness :
  let node := mkNode true 0 (PInt 2) fzero [(2, 4)] None None in
  exists g, create [] ["A"; "B"] [[229; 129; 57]; [57; 157; 229]] node
                   (mkWorld (fun k => k) header)
            = (Raise IndexError, mkWorld g header).
Proof.
  intros node.
  destruct (create_leaf_bad_class_raises [] ["A"; "B"]
              [[229; 129; 57]; [57; 157; 229]] node
              (mkWorld (fun k => k) header) eq_refl) as [Hint _].
  apply (Hint 2 eq_refl). right. cbn. lia.
Defined.

(** ** How faint an internal node can get *)

Lemma total_count_le_length_max : forall (cs : list (Z * Z)) M,
  (forall kv, In kv cs -> snd kv <= M) ->
  total_count cs <= Z.of_nat (List.length cs) * M.
Proof.
  induction cs as [|kv cs IH]; intros M HM.
  - cbn. lia.
  - rewrite total_count_cons. cbn [List.length]. rewrite Nat2Z.inj_succ.
    assert (snd kv <= M) by (apply HM; left; reflexivity).
    assert (total_count cs <= Z.of_nat (List.length cs) * M)
      by (apply IH; intros kv' Hin; apply HM; right; exact Hin).
    lia.
Qed.

(** X15: For an internal node with non-negative counts whose sum is positive
    and below 2^45, the alpha of the fill colour is at least 255 divided
    by the number of classes counted at the node, and it is 255 when the
    majority class holds all the samples. *)
Theorem internal_alpha_lower_bound : forall colors node rgb cls count,
  is_leaf node = false ->
  Forall (fun kv => 0 <= snd kv) (counts node) ->
  0 < total_count (counts node) < 2 ^ 45 ->
  most_common_1 (counts node) = [(cls, count)] ->
  py_index colors cls = Ok rgb ->
  Forall channel rgb ->
  exists alpha body,
    get_node_color colors node = Ok (String "#" body)
    /\ decode_hex_pairs body = Some (rgb ++ [alpha])
    /\ 255 / Z.of_nat (List.length (counts node)) <= alpha <= 255
    /\ (count = total_count (counts node) -> alpha = 255).
Proof.
  intros colors node rgb cls count Hleaf Hnonneg Htotal Hmc Hidx Hrgb.
  set (total := total_count (counts node)) in *.
  assert (Hne : counts node <> []).
  { intros E. rewrite E in Hmc. discriminate. }
  destruct (most_common_1_largest (counts node) Hne) as [kv [Hmc' [Hin Hmax]]].
  rewrite Hmc in Hmc'. inversion Hmc'; subst kv; clear Hmc'. cbn [snd] in Hmax.
  destruct (total_count_bounds (counts node) Hnonneg) as [_ Hbound].
  pose proof (Hbound _ Hin) as Hle. cbn [snd] in Hle. fold total in Hle.
  assert (Hcount : 0 <= count).
  { rewrite Forall_forall in Hnonneg. apply (Hnonneg _ Hin). }
  pose proof (total_count_le_length_max (counts node) count Hmax) as Havg.
  fold total in Havg.
  set (n := Z.of_nat (List.length (counts node))) in *.
  assert (Hn : 0 < n).
  { subst n. destruct (counts node); [congruence | cbn [List.length]; lia]. }
  assert (Hhi : 255 * count / total <= 255)
    by (apply Z.div_le_upper_bound; lia).
  assert (Hlo : 255 / n <= 255 * count / total).
  { apply Z.div_le_lower_bound; [lia|].
    assert (0 <= 255 / n) by (apply Z.div_pos; lia).
    assert (n * (255 / n) <= 255) by (apply Z.mul_div_le; lia).
    nia. }
  destruct (int_truediv_trunc_floor (255 * count) total 8)
    as [q [Hq Hfloor]];
    try (change (2 ^ 8) with 256); try lia.
  set (alpha := 255 * count / total) in *.
  assert (Hrgba : Forall channel (rgb ++ [alpha])).
  { assert (0 <= 255 / n) by (apply Z.div_pos; lia).
    apply Forall_app. split; [exact Hrgb|].
    constructor; [unfold channel; lia | constructor]. }
  destruct (to_hexadecimal_channels (rgb ++ [alpha]) Hrgba) as [body [Ehex Hdec]].
  exists alpha, body. split; [|split; [exact Hdec|split; [lia|]]].
  - unfold get_node_color. rewrite Hleaf, Hmc. cbn [unpack_single rbind].
    rewrite Hidx. cbn [rbind]. fold total. rewrite Hq. cbn [rbind].
    rewrite Hfloor. cbn [rbind]. exact Ehex.
  - intros ->. subst alpha. apply Z.div_mul. lia.
Qed.

Lemma internal_alpha_lower_bound_witness :
  let node := mkNode false 0 (PFloat (literal 5 2)) (literal 1 2)
                     [(0, 1); (1, 1)] None None in
  exists alpha body,
    get_node_color [[229; 129; 57]; [57; 157; 229]] node = Ok (String "#" body)
    /\ decode_hex_pairs body = Some ([229; 129; 57] ++ [alpha])
    /\ 255 / 2 <= alpha <= 255
    /\ (1 = 2 -> alpha = 255).
Proof.
  intros node.
  apply (internal_alpha_lower_bound [[229; 129; 57]; [57; 157; 229]] node
           [229; 129; 57] 0 1).
  - reflexivity.
  - repeat constructor; cbn; lia.
  - split; vm_compute; reflexivity.
  - reflexivity.
  - reflexivity.
  - repeat constructor; unfold channel; lia.
Defined.
